(** * Marlin renderer context, Wayland/Vulkan surface data and JAWS announcer

    A shallow embedding of
    - [sun.java2d.marlin.RendererContext] (the per-thread pipeline context:
      [dispose] and [getPath2D]),
    - the native [WLVKSurfaceData.initOps] entry point,
    - the native [JawsAnnounce] function, the COM wrappers it keeps in
      statics and the thread-local buffer of its logger,
    followed by models of the dasher, the array cache and the curve
    monotonizer, and by the theorems relating them to the rendering
    pipeline's specification.

    Part I holds the definitions, Part II the theorems. *)

From Stdlib Require Import ZArith List Bool Lia String.
From Stdlib Require Import Reals Lra Psatz.
From Stdlib Require Import Floats.SpecFloat.
From stdpp Require Import base gmap.
From Equations Require Import Equations.
Import ListNotations.

(* ===================================================================== *)
(** * Part I: definitions                                                 *)
(* ===================================================================== *)

(** ** Java objects: references, doubles, outcomes of a call *)

(** An object identity.  Identities are handed out by a counter and never
    reused, also after the object has been collected. *)
Definition ref := positive.

(** A Java [double], as its IEEE 754 value. *)
Definition double := spec_float.

(** The literal [0.0d]. *)
Definition dzero : double := S754_zero false.

Inductive Throwable :=
| NullPointerException.

(** A method call either returns or throws. *)
Inductive Result (A : Type) :=
| Returned (a : A)
| Thrown (e : Throwable).
Arguments Returned {A} a.
Arguments Thrown {A} e.

(** ** [MarlinConst]: the constants [RendererContext] inherits

    [RendererContext implements MarlinConst]; the interface is declared in
    another file, so its constants are the methods of a class.  [USE_DPQS] is [MergeSort.USE_DPQS]. *)
Class MarlinConst := {
  DO_STATS : bool;
  DO_MONITORS : bool;
  LOG_CREATE_CONTEXT : bool;
  WIND_NON_ZERO : Z;
  INITIAL_EDGES_COUNT : Z;
  USE_DPQS : bool
}.

(** ** The pipeline stages

    [NormalizingPathIterator], [Dasher] and [Stroker] live in other files.
    What [RendererContext] needs from them is their [dispose()] method:
    an effect of the receiver on the states of the stage objects. *)
Class Stages := {
  StageHeap : Type;
  NormalizingPathIterator_dispose : ref -> StageHeap -> StageHeap;
  Dasher_dispose : ref -> StageHeap -> StageHeap;
  Stroker_dispose : ref -> StageHeap -> StageHeap
}.

(** ** [java.awt.geom.Path2D.Double] *)

(** Modelled from the spec: [java.awt.geom.Path2D.Double] is not under the
    sources; it is the "recyclable output path object", an "explicitly-reset
    buffer".  A path is its winding rule, the capacity it was created with
    and the segments appended so far (types and coordinates). *)
Record Path2D_Double := {
  windingRule : Z;
  initialCapacity : Z;
  pointTypes : list Z;
  doubleCoords : list double
}.

(** [new Path2D.Double(rule, initialCapacity)]: an empty path. *)
Definition Path2D_Double_new (rule cap : Z) : Path2D_Double :=
  {| windingRule := rule; initialCapacity := cap;
     pointTypes := []; doubleCoords := [] |}.

(** [Path2D.reset()]: forgets every segment, keeps rule and storage. *)
Definition Path2D_reset (p : Path2D_Double) : Path2D_Double :=
  {| windingRule := windingRule p; initialCapacity := initialCapacity p;
     pointTypes := []; doubleCoords := [] |}.

(** The reset (empty) state: no point type and no coordinate. *)
Definition Path2D_isEmpty (p : Path2D_Double) : bool :=
  match pointTypes p, doubleCoords p with
  | [], [] => true
  | _, _ => false
  end.

(** ** The heap a context lives in *)

Module RendererContext.

(** What a call does to other objects, in order. *)
Inductive Event :=
| Call_NormalizingPathIterator_dispose (this : ref)
| Call_Dasher_dispose (this : ref)
| Call_Stroker_dispose (this : ref)
| Call_WeakReference_get (this : ref)
| New_Path2D_Double (p : ref) (rule cap : Z)
| New_WeakReference (w referent : ref)
| Call_Path2D_reset (this : ref).

(** The receiver (or the created object) of an event. *)
Definition receiver (e : Event) : ref :=
  match e with
  | Call_NormalizingPathIterator_dispose r => r
  | Call_Dasher_dispose r => r
  | Call_Stroker_dispose r => r
  | Call_WeakReference_get r => r
  | New_Path2D_Double p _ _ => p
  | New_WeakReference w _ => w
  | Call_Path2D_reset r => r
  end.

(** The events that force-reset a stage. *)
Definition is_dispose (e : Event) : bool :=
  match e with
  | Call_NormalizingPathIterator_dispose _
  | Call_Dasher_dispose _
  | Call_Stroker_dispose _ => true
  | _ => false
  end.

Section WithStages.
Context `{MC : MarlinConst} `{ST : Stages}.

(** The part of the Java heap the context reads and writes:
    the [Path2D.Double] objects, the [WeakReference] objects (their
    referent, [None] once the collector has cleared them), the stage
    objects, and the allocation counter. *)
Record Heap := {
  paths : gmap ref Path2D_Double;
  weakRefs : gmap ref (option ref);
  stages : StageHeap;
  nextRef : ref
}.

(** [RendererStats]: the counters [dispose] touches. *)
Record RendererStats := {
  totalOffHeapInitial : Z;
  totalOffHeap : Z;
  totalOffHeapMax : Z
}.

(** The fields of [RendererContext], in the order of the class.
    [final] fields are references that no method assigns. *)
Record RendererContext := {
  cleanerObj : ref;
  dirty : bool;
  double6 : ref;
  curve : ref;
  nPCPathIterator : ref;
  nPQPathIterator : ref;
  transformerPC2D : ref;
  refPath2D : option ref;
  renderer : ref;
  stroker : ref;
  simplifier : ref;
  pathSimplifier : ref;
  dasher : ref;
  ptg : ref;
  ftg : ref;
  cache : ref;
  stroking : Z;
  doClip : bool;
  closedPath : bool;
  clipRect : ref;
  clipInvScale : double;
  monotonizer : ref;
  firstFlags : Z;
  curveClipSplitter : ref;
  sorterCtx : option ref;
  cleanIntCache : ref;
  dirtyIntCache : ref;
  dirtyDoubleCache : ref;
  dirtyByteCache : ref;
  stats : option RendererStats;
  p2dAdapter : ref
}.

(** Assignment to the non-final fields; every other field is copied. *)
Definition assign (ctx : RendererContext)
    (dirty' : bool) (refPath2D' : option ref) (stroking' : Z)
    (doClip' closedPath' : bool) (clipInvScale' : double) (firstFlags' : Z)
    (stats' : option RendererStats) : RendererContext :=
  {| cleanerObj := cleanerObj ctx;
     dirty := dirty';
     double6 := double6 ctx;
     curve := curve ctx;
     nPCPathIterator := nPCPathIterator ctx;
     nPQPathIterator := nPQPathIterator ctx;
     transformerPC2D := transformerPC2D ctx;
     refPath2D := refPath2D';
     renderer := renderer ctx;
     stroker := stroker ctx;
     simplifier := simplifier ctx;
     pathSimplifier := pathSimplifier ctx;
     dasher := dasher ctx;
     ptg := ptg ctx;
     ftg := ftg ctx;
     cache := cache ctx;
     stroking := stroking';
     doClip := doClip';
     closedPath := closedPath';
     clipRect := clipRect ctx;
     clipInvScale := clipInvScale';
     monotonizer := monotonizer ctx;
     firstFlags := firstFlags';
     curveClipSplitter := curveClipSplitter ctx;
     sorterCtx := sorterCtx ctx;
     cleanIntCache := cleanIntCache ctx;
     dirtyIntCache := dirtyIntCache ctx;
     dirtyDoubleCache := dirtyDoubleCache ctx;
     dirtyByteCache := dirtyByteCache ctx;
     stats := stats';
     p2dAdapter := p2dAdapter ctx |}.

Definition set_dirty (b : bool) (ctx : RendererContext) : RendererContext :=
  assign ctx b (refPath2D ctx) (stroking ctx) (doClip ctx) (closedPath ctx)
         (clipInvScale ctx) (firstFlags ctx) (stats ctx).

Definition set_refPath2D (w : option ref) (ctx : RendererContext) : RendererContext :=
  assign ctx (dirty ctx) w (stroking ctx) (doClip ctx) (closedPath ctx)
         (clipInvScale ctx) (firstFlags ctx) (stats ctx).

Definition set_stats (s : option RendererStats) (ctx : RendererContext) : RendererContext :=
  assign ctx (dirty ctx) (refPath2D ctx) (stroking ctx) (doClip ctx)
         (closedPath ctx) (clipInvScale ctx) (firstFlags ctx) s.

Definition set_stages (s : StageHeap) (h : Heap) : Heap :=
  {| paths := paths h; weakRefs := weakRefs h; stages := s; nextRef := nextRef h |}.

(** [new]: the next identity. *)
Definition alloc (h : Heap) : ref * Heap :=
  (nextRef h,
   {| paths := paths h; weakRefs := weakRefs h; stages := stages h;
      nextRef := Pos.succ (nextRef h) |}).

Definition offset (a : ref) (k : positive) : ref := (a + k)%positive.
Arguments offset a k%_positive.

(** *** The constructor

    The objects the field initialisers and the constructor body create, in
    the order Java runs them; [a] is the first free identity.  The
    constructors of the stage classes are in other files: only the
    identities of the created objects are modelled here. *)
Definition RendererContext_new (a : ref) : RendererContext * ref :=
  ({| (* field initialisers *)
      dirty := false;
      double6 := a;
      curve := offset a 1;
      refPath2D := None;
      simplifier := offset a 2;
      pathSimplifier := offset a 3;
      stroking := 0;
      doClip := false;
      closedPath := false;
      clipRect := offset a 4;
      clipInvScale := dzero;
      firstFlags := 0;
      cleanIntCache := offset a 5;
      dirtyIntCache := offset a 6;
      dirtyDoubleCache := offset a 7;
      dirtyByteCache := offset a 8;
      p2dAdapter := offset a 9;
      (* constructor body *)
      cleanerObj := offset a 10;
      stats := if DO_STATS || DO_MONITORS
               then Some {| totalOffHeapInitial := 0; totalOffHeap := 0;
                            totalOffHeapMax := 0 |}
               else None;
      nPCPathIterator := offset a 11;
      nPQPathIterator := offset a 12;
      monotonizer := offset a 13;
      curveClipSplitter := offset a 14;
      transformerPC2D := offset a 15;
      cache := offset a 16;
      renderer := offset a 17;
      ftg := offset a 18;
      ptg := offset a 19;
      stroker := offset a 20;
      dasher := offset a 21;
      sorterCtx := if USE_DPQS then Some (offset a 22) else None |},
   offset a 23).

(** [createContext()]: a new context, and the creation counter
    [CTX_COUNT] incremented; the name ["ctx" + n] is used for logging
    only. *)
Definition createContext (CTX_COUNT : Z) (a : ref) : RendererContext * Z * ref :=
  (fst (RendererContext_new a), (CTX_COUNT + 1)%Z, snd (RendererContext_new a)).

(** *** [dispose()] *)

(** The [if (DO_STATS)] block: [stats] is dereferenced. *)
Definition dispose_stats (ctx : RendererContext) : Result RendererContext :=
  if DO_STATS then
    match stats ctx with
    | None => Thrown NullPointerException
    | Some s =>
        let max' := if (totalOffHeapMax s <? totalOffHeap s)%Z
                    then totalOffHeap s else totalOffHeapMax s in
        Returned (set_stats
                    (Some {| totalOffHeapInitial := totalOffHeapInitial s;
                             totalOffHeap := 0;
                             totalOffHeapMax := max' |}) ctx)
    end
  else Returned ctx.

(** The five assignments that follow. *)
Definition reset_per_operation (ctx : RendererContext) : RendererContext :=
  assign ctx (dirty ctx) (refPath2D ctx) 0 false false dzero 0 (stats ctx).

(** The [if (dirty)] block. *)
Definition dispose_dirty (ctx : RendererContext) (h : Heap)
  : RendererContext * Heap * list Event :=
  if dirty ctx then
    let s1 := NormalizingPathIterator_dispose (nPCPathIterator ctx) (stages h) in
    let s2 := NormalizingPathIterator_dispose (nPQPathIterator ctx) s1 in
    let s3 := Dasher_dispose (dasher ctx) s2 in
    let s4 := Stroker_dispose (stroker ctx) s3 in
    (set_dirty false ctx, set_stages s4 h,
     [ Call_NormalizingPathIterator_dispose (nPCPathIterator ctx);
       Call_NormalizingPathIterator_dispose (nPQPathIterator ctx);
       Call_Dasher_dispose (dasher ctx);
       Call_Stroker_dispose (stroker ctx) ])
  else (ctx, h, []).

Definition dispose (ctx : RendererContext) (h : Heap)
  : Result (RendererContext * Heap * list Event) :=
  match dispose_stats ctx with
  | Thrown e => Thrown e
  | Returned ctx1 => Returned (dispose_dirty (reset_per_operation ctx1) h)
  end.

(** *** [getPath2D()] *)

(** [WeakReference.get()]: the referent, or [null] once cleared. *)
Definition WeakReference_get (w : ref) (h : Heap) : option ref :=
  match weakRefs h !! w with
  | Some (Some p) => Some p
  | _ => None
  end.

(** The path the context's weak reference resolves to, if any. *)
Definition resolve (ctx : RendererContext) (h : Heap) : option ref :=
  match refPath2D ctx with
  | Some w => WeakReference_get w h
  | None => None
  end.

(** [p2d.reset()] on the heap. *)
Definition heap_reset_path (p : ref) (h : Heap) : Heap :=
  {| paths := alter Path2D_reset p (paths h); weakRefs := weakRefs h;
     stages := stages h; nextRef := nextRef h |}.

Definition getPath2D (ctx : RendererContext) (h : Heap)
  : ref * RendererContext * Heap * list Event :=
  (* resolve reference: *)
  let '(p2d, ev0) :=
    match refPath2D ctx with
    | Some w => (WeakReference_get w h, [Call_WeakReference_get w])
    | None => (None, [])
    end in
  match p2d with
  | None =>
      (* create a new Path2D *)
      let '(p, h1) := alloc h in
      let h2 := {| paths := <[p := Path2D_Double_new WIND_NON_ZERO INITIAL_EDGES_COUNT]> (paths h1);
                   weakRefs := weakRefs h1; stages := stages h1;
                   nextRef := nextRef h1 |} in
      (* update weak reference *)
      let '(w, h3) := alloc h2 in
      let h4 := {| paths := paths h3;
                   weakRefs := <[w := Some p]> (weakRefs h3);
                   stages := stages h3; nextRef := nextRef h3 |} in
      (p, set_refPath2D (Some w) ctx, heap_reset_path p h4,
       ev0 ++ [New_Path2D_Double p WIND_NON_ZERO INITIAL_EDGES_COUNT;
               New_WeakReference w p; Call_Path2D_reset p])
  | Some p =>
      (p, ctx, heap_reset_path p h, ev0 ++ [Call_Path2D_reset p])
  end.

(** *** The collector

    Between two calls the collector may reclaim [Path2D] objects that are
    only weakly reachable: the objects in [garbage] disappear and every
    weak reference to one of them is cleared. *)
Definition clear_if (garbage : gset ref) (referent : option ref) : option ref :=
  match referent with
  | Some p => if decide (p ∈ garbage) then None else Some p
  | None => None
  end.

Definition collect (garbage : gset ref) (h : Heap) : Heap :=
  {| paths := filter (fun kv => kv.1 ∉ garbage) (paths h);
     weakRefs := clear_if garbage <$> weakRefs h;
     stages := stages h;
     nextRef := nextRef h |}.

(** *** Well-formed contexts

    What the constructor establishes and no method breaks: [stats] is set
    whenever [DO_STATS] is, and the stage objects are distinct. *)
Definition stage_refs (ctx : RendererContext) : list ref :=
  [ nPCPathIterator ctx; nPQPathIterator ctx; dasher ctx; stroker ctx;
    renderer ctx; cache ctx; ptg ctx; ftg ctx ].

Definition ctx_wf (ctx : RendererContext) : Prop :=
  (DO_STATS = true -> stats ctx <> None) /\ NoDup (stage_refs ctx).

(** Every path object and weak reference was allocated. *)
Definition heap_wf (h : Heap) : Prop :=
  (forall p, is_Some (paths h !! p) -> (p < nextRef h)%positive) /\
  (forall w, is_Some (weakRefs h !! w) -> (w < nextRef h)%positive) /\
  (forall w p, weakRefs h !! w = Some (Some p) -> is_Some (paths h !! p)).

End WithStages.

End RendererContext.

(** ** [WLVKSurfaceData.cpp] *)

Module WLVKSurfaceData.

(** A [jint] is a 32-bit signed integer. *)
Definition jint_min : Z := - 2 ^ 31.
Definition jint_max : Z := 2 ^ 31 - 1.
Definition is_jint (z : Z) : Prop := (jint_min <= z <= jint_max)%Z.

(** The entries [initOps] stores in the [SurfaceDataOps] table. *)
Inductive SDFunc := WLVKSD_Lock | WLVKSD_Unlock | WLVKSD_GetRasInfo | WLVKSD_Dispose.

Inductive MutexType := PTHREAD_MUTEX_DEFAULT | PTHREAD_MUTEX_RECURSIVE_NP.

(** [VKSDOps] after [initOps]: the private ops block, the four functions
    and the mutex of the private block. *)
Record VKSDOps := {
  privOps : ref;
  sdOps_Lock : SDFunc;
  sdOps_Unlock : SDFunc;
  sdOps_GetRasInfo : SDFunc;
  sdOps_Dispose : SDFunc;
  lock : MutexType
}.

(** What the build and the allocators answer: whether the file is compiled
    [HEADLESS], the block [SurfaceData_InitOps] returns ([None] is
    [NULL]) and the block [malloc] returns. *)
Record Env := {
  HEADLESS : bool;
  SurfaceData_InitOps : option ref;
  malloc : option ref
}.

(** The state [initOps] returns in: its parameters [width] and [height]
    (the function assigns them), the Java exception it has thrown, and the
    ops it has filled in. *)
Record Outcome := {
  width : Z;
  height : Z;
  exception : option string;
  vsdo : option VKSDOps
}.

Definition Java_sun_java2d_vulkan_WLVKSurfaceData_initOps
    (env : Env) (width height backgroundRGB : Z) : Outcome :=
  if HEADLESS env then
    {| width := width; height := height; exception := None; vsdo := None |}
  else
    match SurfaceData_InitOps env with
    | None =>
        {| width := width; height := height;
           exception := Some "Initialization of SurfaceData failed."%string;
           vsdo := None |}
    | Some _ =>
        let width := if (width <=? 0)%Z then 1%Z else width in
        let height := if (height <=? 0)%Z then 1%Z else height in
        match malloc env with
        | None =>
            {| width := width; height := height;
               exception := Some "creating native WLVK ops"%string;
               vsdo := None |}
        | Some wlvksdOps =>
            {| width := width; height := height; exception := None;
               vsdo := Some {| privOps := wlvksdOps;
                               sdOps_Lock := WLVKSD_Lock;
                               sdOps_Unlock := WLVKSD_Unlock;
                               sdOps_GetRasInfo := WLVKSD_GetRasInfo;
                               sdOps_Dispose := WLVKSD_Dispose;
                               lock := PTHREAD_MUTEX_RECURSIVE_NP |} |}
        end
    end.

(** Execution gets past the [vsdo == NULL] check. *)
Definition reaches_clamp (env : Env) : bool :=
  negb (HEADLESS env) && bool_decide (SurfaceData_InitOps env <> None).

(** A build with a display, on which both allocations succeed. *)
Definition env_ok : Env :=
  {| HEADLESS := false; SurfaceData_InitOps := Some 1%positive;
     malloc := Some 2%positive |}.

End WLVKSurfaceData.

(** ** The JAWS announcer *)

Module JawsAnnouncer.

Definition DWORD := Z.
Definition HRESULT := Z.
Definition VARIANT_BOOL := Z.

(** The constants of the Windows headers and of the generated
    [sun_swing_AccessibleAnnouncer.h], which the sources use by name, and
    whether the file is compiled with [DEBUG]. *)
Class WinApi := {
  S_OK : HRESULT;
  S_FALSE : HRESULT;
  RPC_E_CHANGED_MODE : HRESULT;
  CO_E_NOTINITIALIZED : HRESULT;
  FAILED : HRESULT -> bool;
  VARIANT_TRUE : VARIANT_BOOL;
  VARIANT_FALSE : VARIANT_BOOL;
  ANNOUNCE_WITHOUT_INTERRUPTING_CURRENT_OUTPUT : Z;
  DEBUG : bool
}.

(** What a call gives its caller: a value, or nothing at all when it
    never returns. *)
Inductive Answer :=
| Returns (value : bool)
| Never_returns.

(** What a call does outside the function, in order.  A log entry is
    kept by its fixed text.

    [logEntry] formats each of its values with [snprintf] in a loop that
    ends once [snprintf] has answered a length and the buffer has the
    room for it; the allocator is taken to give that room.  The entries
    of [JawsAnnounce] hold fixed texts, pointers and integers, which
    [snprintf] always formats, but for two: the entries of lines 481 and
    485 hold the characters of the string to speak, formatted with
    [%ls], and [snprintf] answers a negative value whenever it cannot
    convert one of them.  The loop then has no end, and neither has the
    call (see [Idea321176Logger] below). *)
Inductive Event :=
| LogEntry (text : string)
| Fprintf_stderr (text : string)
| CoInitialize_call
| CoCreateInstance_call
| Release_call (obj : ref)
| GetStringChars_call
| ExceptionCheck_call
| ThrowOutOfMemoryError (msg : string)
| SysAllocString_call
| ReleaseStringChars_call
| SayString_call (interrupt : VARIANT_BOOL)
| SysFreeString_call.

(** Logging, on [System.err] or [stderr]: neither COM nor speech. *)
Definition only_logs (e : Event) : bool :=
  match e with
  | LogEntry _ | Fprintf_stderr _ => true
  | _ => false
  end.

Section WithWinApi.
Context `{W : WinApi}.

(** [ComInitializationWrapper]. *)
Record ComInitializationWrapper := { m_initializeResult : HRESULT }.

Definition isInitialized (c : ComInitializationWrapper) : bool :=
  (m_initializeResult c =? S_OK)%Z ||
  (m_initializeResult c =? S_FALSE)%Z ||
  (m_initializeResult c =? RPC_E_CHANGED_MODE)%Z.

(** [tryInitialize()]; [coInit] is what [CoInitialize(nullptr)] answers. *)
Definition tryInitialize (c : ComInitializationWrapper) (coInit : HRESULT)
  : ComInitializationWrapper * HRESULT * list Event :=
  if isInitialized c then (c, m_initializeResult c, [])
  else ({| m_initializeResult := coInit |}, coInit, [CoInitialize_call]).

(** The function-local statics of [JawsAnnounce].  [comInitThreadId] is
    [None] until the first call initialises it. *)
Record Statics := {
  comInitThreadId : option DWORD;
  comInitializer : ComInitializationWrapper;
  pJawsApi : option ref
}.

Definition statics0 : Statics :=
  {| comInitThreadId := None;
     comInitializer := {| m_initializeResult := CO_E_NOTINITIALIZED |};
     pJawsApi := None |}.

(** What the system answers during one call.  [encodable] says whether
    [snprintf] can convert the characters of the string to speak for
    [%ls]. *)
Record Env := {
  GetCurrentThreadId : DWORD;
  CoInitialize : HRESULT;
  CoCreateInstance : HRESULT * option ref;
  GetStringChars : option (list Z);
  encodable : bool;
  ExceptionCheck : bool;
  SysAllocString : option ref;
  SayString : HRESULT * VARIANT_BOOL
}.

Definition debug (text : string) : list Event :=
  if DEBUG then [Fprintf_stderr text] else [].

(** The out-of-memory exit: throw unless an exception is pending. *)
Definition throw_unless_pending (env : Env) (msg : string) : list Event :=
  ExceptionCheck_call ::
  (if ExceptionCheck env then [] else [ThrowOutOfMemoryError msg]).

(** From [SayString] to the end. *)
Definition say (st : Statics) (env : Env) (api : ref)
    (interrupt : VARIANT_BOOL) (tr : list Event)
  : Answer * Statics * list Event :=
  let '(comCallResult, jawsSucceeded) := SayString env in
  let tr := tr ++ [ LogEntry "JawsAnnounce: trying to say the string through COM...";
                    SayString_call interrupt;
                    LogEntry "JawsAnnounce: the COM call has finished...";
                    SysFreeString_call;
                    LogEntry "JawsAnnounce: stringToSpeak has been freed" ]%string in
  if FAILED comCallResult then
    (Returns false, st,
     tr ++ debug "JawsAnnounce: failed to invoke COM function to say string"
        ++ [LogEntry "<- JawsAnnounce: the COM call has failed"%string])
  else if negb (jawsSucceeded =? VARIANT_TRUE)%Z then
    (Returns false, st,
     tr ++ debug "JawsAnnounce: failed to say string"
        ++ [LogEntry "<- JawsAnnounce: failed to announce the string"%string])
  else
    (Returns true, st, tr ++ [LogEntry "<- JawsAnnounce: SUCCEEDED."%string]).

(** From "obtaining the string to speak" to [SayString].  When
    [snprintf] cannot convert the characters, the entry of line 481 is
    never finished: the characters have been obtained, and nothing
    follows.  When it can, the entry of line 485, which holds a copy of
    the same characters (or no string at all), is finished as well. *)
Definition speak (st : Statics) (env : Env) (api : ref)
    (priority : Z) (tr : list Event) : Answer * Statics * list Event :=
  let tr := tr ++ [ LogEntry "JawsAnnounce: pJawsApi is initialized.";
                    LogEntry "JawsAnnounce: obtaining the string to speak..." ]%string in
  let jawsInterruptCurrentOutput :=
    if (priority =? ANNOUNCE_WITHOUT_INTERRUPTING_CURRENT_OUTPUT)%Z
    then VARIANT_FALSE else VARIANT_TRUE in
  match GetStringChars env with
  | None =>
      (Returns false, st,
       tr ++ [GetStringChars_call]
          ++ throw_unless_pending env
               "JawsAnnounce: failed to obtain chars from the announcing string"
          ++ [LogEntry "<- JawsAnnounce: jStringToSpeak=nullptr"%string])
  | Some _ =>
      let tr := tr ++ [GetStringChars_call] in
      if negb (encodable env) then
        (* logEntry("JawsAnnounce: jStringToSpeak=", ...) has no end *)
        (Never_returns, st, tr)
      else
        let tr := tr ++ [ LogEntry "JawsAnnounce: jStringToSpeak=";
                          SysAllocString_call;
                          LogEntry "JawsAnnounce: stringToSpeak=";
                          ReleaseStringChars_call ]%string in
        match SysAllocString env with
        | None =>
            (Returns false, st,
             tr ++ throw_unless_pending env
                     "JawsAnnounce: failed to allocate memory for the announcing string"
                ++ [LogEntry "<- JawsAnnounce: stringToSpeak=nullptr"%string])
        | Some _ => say st env api jawsInterruptCurrentOutput tr
        end
  end.

Definition JawsAnnounce (st : Statics) (env : Env) (priority : Z)
  : Answer * Statics * list Event :=
  let tr := [LogEntry "JawsAnnounce("%string] in
  (* static const DWORD comInitThreadId = ::GetCurrentThreadId(); *)
  let currThread := GetCurrentThreadId env in
  let initThread := match comInitThreadId st with
                    | Some t => t
                    | None => currThread
                    end in
  let st := {| comInitThreadId := Some initThread;
               comInitializer := comInitializer st;
               pJawsApi := pJawsApi st |} in
  if negb (currThread =? initThread)%Z then
    (Returns false, st,
     tr ++ debug "JawsAnnounce: currThread != comInitThreadId."
        ++ [LogEntry "<- JawsAnnounce: currThread != comInitThreadId"%string])
  else
    let tr := tr ++ [LogEntry "JawsAnnounce: trying to initialize COM..."%string] in
    let '(ci, _, ev) := tryInitialize (comInitializer st) (CoInitialize env) in
    let st := {| comInitThreadId := comInitThreadId st;
                 comInitializer := ci;
                 pJawsApi := pJawsApi st |} in
    let tr := tr ++ ev in
    if negb (isInitialized ci) then
      (Returns false, st,
       tr ++ debug "JawsAnnounce: CoInitialize failed"
          ++ [LogEntry "<- JawsAnnounce: CoInitialize failed"%string])
    else
      let tr := tr ++ [ LogEntry "JawsAnnounce: COM is initialized.";
                        LogEntry "JawsAnnounce: trying to initialize pJawsApi instance..." ]%string in
      match pJawsApi st with
      | Some api => speak st env api priority tr
      | None =>
          let '(hr, objPtr) := CoCreateInstance env in
          let tr := tr ++ [CoCreateInstance_call] in
          match (hr =? S_OK)%Z, objPtr with
          | true, Some api =>
              speak {| comInitThreadId := comInitThreadId st;
                       comInitializer := comInitializer st;
                       pJawsApi := Some api |} env api priority tr
          | _, _ =>
              (* pJawsApi.objPtr is left null *)
              (Returns false, st,
               tr ++ debug "JawsAnnounce: CoCreateInstance failed"
                  ++ match objPtr with
                     | Some obj => [Release_call obj]
                     | None => []
                     end
                  ++ [LogEntry "<- JawsAnnounce: CoCreateInstance failed"%string])
          end
      end.

(** A call: what the system answers, and the priority asked for.  The
    [env] and [str] arguments are non-null ([DASSERT]). *)
Record Call := { answers : Env; priority : Z }.

(** The calls of a process, one after the other on the same statics:
    the answer and the events of each.  A call that never returns keeps
    its thread; the calls after it are those of other threads. *)
Fixpoint run (st : Statics) (calls : list Call) : list (Answer * list Event) :=
  match calls with
  | [] => []
  | c :: rest =>
      let '(b, st', tr) := JawsAnnounce st (answers c) (priority c) in
      (b, tr) :: run st' rest
  end.

End WithWinApi.

(** The values of the Windows SDK. *)
#[export] Instance windows : WinApi := {|
  S_OK := 0%Z;
  S_FALSE := 1%Z;
  RPC_E_CHANGED_MODE := (-2147417850)%Z;
  CO_E_NOTINITIALIZED := (-2147221008)%Z;
  FAILED := fun hr => (hr <? 0)%Z;
  VARIANT_TRUE := (-1)%Z;
  VARIANT_FALSE := 0%Z;
  ANNOUNCE_WITHOUT_INTERRUPTING_CURRENT_OUTPUT := 0%Z;
  DEBUG := false
|}.

(** A system on which everything succeeds, seen from thread [t]. *)
Definition all_fine (t : DWORD) : Env :=
  {| GetCurrentThreadId := t;
     CoInitialize := 0%Z;
     CoCreateInstance := (0%Z, Some 1%positive);
     GetStringChars := Some [104; 105]%Z;
     encodable := true;
     ExceptionCheck := false;
     SysAllocString := Some 2%positive;
     SayString := (0, -1)%Z |}.

End JawsAnnouncer.

(** ** The dasher *)

Module Dasher.
Local Open Scope Z_scope.

(** Modelled from the spec: the [Dasher] class is not under the sources
    ([RendererContext] only holds the instance, [final Dasher dasher]).
    The specification gives its input as "a path, a dash pattern (ordered
    sequence of positive lengths alternating on/off), a starting phase
    offset", its output as "a path consisting only of the on
    sub-segments", and its algorithm as one that "walks the path tracking
    cumulative arc length against a repeating cursor into the dash
    pattern".  Lengths are whole numbers of the rasterizer's length unit;
    a straight segment is walked by arc length from [pos] to [len].

    The cursor: which dash of the pattern is current, whether it is an
    "on" dash, and how much of it is left. *)
Record Cursor := {
  idx : nat;
  dashOn : bool;
  remaining : Z
}.

(** A pattern is a non-empty sequence of positive lengths. *)
Definition valid_pattern (dash : list Z) : bool :=
  negb (Nat.eqb (length dash) 0) && forallb (fun d => 0 <? d) dash.

(** The cursor at the start of the pattern: first dash, on. *)
Definition start (dash : list Z) : Cursor :=
  {| idx := 0; dashOn := true; remaining := nth 0 dash 0 |}.

(** The cursor moves to the next dash, cyclically, and toggles on/off. *)
Definition next (dash : list Z) (c : Cursor) : Cursor :=
  let i := (S (idx c) mod length dash)%nat in
  {| idx := i; dashOn := negb (dashOn c); remaining := nth i dash 0 |}.

(** The cursor after [step] more units of arc length, [step] being at most
    what is left of the current dash. *)
Definition advance (dash : list Z) (c : Cursor) (step : Z) : Cursor :=
  if remaining c <=? step then next dash c
  else {| idx := idx c; dashOn := dashOn c; remaining := remaining c - step |}.

(** An "on" piece [(from, to)] is emitted, an "off" piece is skipped. *)
Definition emit (on : bool) (span : Z * Z) (r : list (Z * Z) * Cursor)
  : list (Z * Z) * Cursor :=
  (if on then span :: r.1 else r.1, r.2).

(** The walk along a segment from arc length [pos] to its end [len]: the
    "on" spans, in order, and the cursor at the end of the segment. *)
Equations? walk (dash : list Z) (c : Cursor) (pos len : Z)
  : list (Z * Z) * Cursor by wf (Z.to_nat (len - pos)) lt :=
  walk dash c pos len with Z_lt_dec pos len => {
    | right _ := ([], c);
    | left _ with Z_lt_dec 0 (remaining c) => {
        | right _ := ([], c);
        | left _ :=
            emit (dashOn c) (pos, pos + Z.min (remaining c) (len - pos))
              (walk dash (advance dash c (Z.min (remaining c) (len - pos)))
                    (pos + Z.min (remaining c) (len - pos)) len) } }.
Proof. lia. Qed.

(** The dasher on one straight segment of length [len]: the cursor is
    first moved [phase] units into the pattern, then the segment is
    walked.  [None] for a pattern that is not valid or a negative phase. *)
Definition dash_segment (dash : list Z) (phase len : Z) : option (list (Z * Z)) :=
  if valid_pattern dash && (0 <=? phase) then
    let c0 := (walk dash (start dash) 0 phase).2 in
    Some (walk dash c0 0 len).1
  else None.

(** The length of a span. *)
Definition span_length (s : Z * Z) : Z := s.2 - s.1.

(** A cursor of the pattern: on one of its dashes, with some of it left. *)
Definition cursor_ok (dash : list Z) (c : Cursor) : Prop :=
  (idx c < length dash)%nat /\ 0 < remaining c <= nth (idx c) dash 0.

End Dasher.

(** ** The array cache *)

Module ArrayCache.
Local Open Scope Z_scope.

(** Modelled from the spec: the array cache classes ([ArrayCacheIntClean],
    [ArrayCacheInt], ...) are not under the sources; [RendererContext]
    creates them and forwards [newCleanIntArrayRef] to [createRef].  The
    specification describes a pooled array as "a resizable buffer with a
    capacity and a taken flag", "owned by at most one checkout at a time",
    whose contents "on release ... are either zeroed (clean pool) or left
    as-is (dirty pool)", whose capacity "only grows" and "at least doubles
    on resize", behind the contract
    [checkout(minCapacity) -> (buffer, previousLength)] and
    [release(buffer, newLength)]. *)
Inductive PoolKind := CleanPool | DirtyPool.

Record PooledArray := {
  contents : list Z;
  taken : bool;
  lastLength : Z
}.

Definition capacity (a : PooledArray) : Z := Z.of_nat (length (contents a)).

Record Pool := {
  kind : PoolKind;
  arrays : list PooledArray
}.

Definition new_pool (k : PoolKind) : Pool := {| kind := k; arrays := [] |}.

Definition zeros (n : nat) : list Z := repeat 0 n.

(** The capacity after a resize: at least the double, and enough. *)
Definition grown_capacity (cap minCapacity : Z) : Z := Z.max (2 * cap) minCapacity.

(** An idle array is taken, and grown when it is too small: the new
    storage holds the old contents followed by zeros. *)
Definition take (minCapacity : Z) (a : PooledArray) : PooledArray :=
  {| contents :=
       if capacity a <? minCapacity
       then contents a ++ zeros (Z.to_nat (grown_capacity (capacity a) minCapacity)
                                 - length (contents a))
       else contents a;
     taken := true;
     lastLength := lastLength a |}.

(** The first idle array of a list, if any. *)
Fixpoint first_idle (l : list PooledArray) : option nat :=
  match l with
  | [] => None
  | a :: rest => if taken a then option_map S (first_idle rest) else Some 0%nat
  end.

(** [checkout(minCapacity)]: the handle of the buffer, the length given at
    its previous release, and the pool after the call.  With no idle array
    the pool creates one, zero-filled as every new array is. *)
Definition checkout (minCapacity : Z) (p : Pool) : nat * Z * Pool :=
  match first_idle (arrays p) with
  | Some i =>
      match arrays p !! i with
      | Some a =>
          (i, lastLength a,
           {| kind := kind p; arrays := <[i := take minCapacity a]> (arrays p) |})
      | None => (i, 0, p)
      end
  | None =>
      (length (arrays p), 0,
       {| kind := kind p;
          arrays := arrays p ++ [ {| contents := zeros (Z.to_nat minCapacity);
                                     taken := true; lastLength := 0 |} ] |})
  end.

(** The buffer behind a handle that is checked out. *)
Definition buffer (h : nat) (p : Pool) : option (list Z) :=
  match arrays p !! h with
  | Some a => if taken a then Some (contents a) else None
  | None => None
  end.

(** [buffer[i] = v] by the owner of handle [h]; [None] when the handle is
    not checked out or the index is outside the buffer. *)
Definition write (h : nat) (i : nat) (v : Z) (p : Pool) : option Pool :=
  match arrays p !! h with
  | Some a =>
      if taken a && (i <? length (contents a))%nat
      then Some {| kind := kind p;
                   arrays := <[h := {| contents := <[i := v]> (contents a);
                                       taken := true;
                                       lastLength := lastLength a |}]> (arrays p) |}
      else None
  | None => None
  end.

(** Writing the elements [vs] at indices [i], [i+1], ... *)
Fixpoint write_from (h : nat) (i : nat) (vs : list Z) (p : Pool) : option Pool :=
  match vs with
  | [] => Some p
  | v :: rest =>
      match write h i v p with
      | Some p' => write_from h (S i) rest p'
      | None => None
      end
  end.

(** [release(buffer, newLength)]: a clean pool zeroes the contents, a
    dirty pool leaves them; the array is idle again, and [newLength] is
    what the next checkout returns as the previous length.  Zeroing the
    contents is what the data model asks of a clean pool; it covers the
    "region beyond [newLength]" of the contract for every [newLength]. *)
Definition release (h : nat) (newLength : Z) (p : Pool) : Pool :=
  match arrays p !! h with
  | Some a =>
      {| kind := kind p;
         arrays := <[h := {| contents := match kind p with
                                         | CleanPool => zeros (length (contents a))
                                         | DirtyPool => contents a
                                         end;
                             taken := false;
                             lastLength := newLength |}]> (arrays p) |}
  | None => p
  end.

(** The states of a pool of kind [k]: a new pool, and whatever checkouts,
    writes by owners and releases make of it. *)
Inductive reachable (k : PoolKind) : Pool -> Prop :=
| reach_new : reachable k (new_pool k)
| reach_checkout p c : reachable k p -> reachable k (checkout c p).2
| reach_write p h i v p' : reachable k p -> write h i v p = Some p' -> reachable k p'
| reach_release p h n : reachable k p -> reachable k (release h n p).

(** Every idle array holds zeros only. *)
Definition idle_arrays_zero (p : Pool) : Prop :=
  Forall (fun a => taken a = false -> Forall (eq 0) (contents a)) (arrays p).

End ArrayCache.

(** ** The curve monotonizer *)

Module Monotonizer.
Local Open Scope R_scope.

(** Modelled from the spec: [CurveBasicMonotonizer] is not under the
    sources ([RendererContext] only creates the instance).  The
    specification gives its input as "a single quadratic or cubic curve",
    its output as a "sequence of monotonic sub-curves" and its algorithm
    as one that "solves the derivative's roots in the curve parameter
    domain to find Y-extrema; splits at each real root in (0,1);
    numerically guards against near-duplicate roots".  Coordinates are
    real numbers, the roots are the real roots, and a double root is one
    root. *)
Record Point := { px : R; py : R }.

Inductive Curve :=
| Quad (p0 p1 p2 : Point)
| Cubic (p0 p1 p2 p3 : Point).



(** Linear interpolation, and the de Casteljau scheme with one parameter
    per level (the blossom of the curve). *)
Definition lerp (t : R) (a b : Point) : Point :=
  {| px := (1 - t) * px a + t * px b; py := (1 - t) * py a + t * py b |}.

Definition blossom2 (p0 p1 p2 : Point) (u v : R) : Point :=
  lerp v (lerp u p0 p1) (lerp u p1 p2).

Definition blossom3 (p0 p1 p2 p3 : Point) (u v w : R) : Point :=
  lerp w (blossom2 p0 p1 p2 u v) (blossom2 p1 p2 p3 u v).


(** The control points of the part of the curve between the parameters
    [s] and [t]. *)
Definition subcurve (c : Curve) (s t : R) : Curve :=
  match c with
  | Quad p0 p1 p2 =>
      Quad (blossom2 p0 p1 p2 s s) (blossom2 p0 p1 p2 s t) (blossom2 p0 p1 p2 t t)
  | Cubic p0 p1 p2 p3 =>
      Cubic (blossom3 p0 p1 p2 p3 s s s) (blossom3 p0 p1 p2 p3 s s t)
            (blossom3 p0 p1 p2 p3 s t t) (blossom3 p0 p1 p2 p3 t t t)
  end.








(** The sub-curves between consecutive cuts, [s] being the first cut. *)
Fixpoint pieces (c : Curve) (s : R) (ts : list R) : list Curve :=
  match ts with
  | [] => []
  | t :: rest => subcurve c s t :: pieces c t rest
  end.










End Monotonizer.

(** ** [RendererContext]: calls in a row *)

Module RendererContext_sequences.
Import RendererContext.
Section WithStages.
Context `{MC : MarlinConst} `{ST : Stages}.

(** [n] calls of [getPath2D()] in a row, with no collection in between:
    the paths returned, the context, the heap and the events. *)
Fixpoint getPath2D_times (n : nat) (ctx : RendererContext) (h : Heap)
  : list ref * RendererContext * Heap * list Event :=
  match n with
  | O => ([], ctx, h, [])
  | S n' =>
      let '(p, ctx1, h1, tr1) := getPath2D ctx h in
      let '(ps, ctx2, h2, tr2) := getPath2D_times n' ctx1 h1 in
      (p :: ps, ctx2, h2, tr1 ++ tr2)
  end.

Definition is_New_Path2D (e : Event) : bool :=
  match e with New_Path2D_Double _ _ _ => true | _ => false end.

(** The statistics hold byte counts. *)
Definition stats_nonneg (ctx : RendererContext) : Prop :=
  forall s, stats ctx = Some s -> (0 <= totalOffHeap s /\ 0 <= totalOffHeapMax s)%Z.

End WithStages.
End RendererContext_sequences.

(** ** [WLVKSurfaceData]: the surface lock

    [WLVKSD_Lock] and [WLVKSD_Unlock] work on the mutex [initOps] creates.
    The mutex itself belongs to the C library; it is modelled by what
    POSIX says of [pthread_mutex_lock] and [pthread_mutex_unlock] for the
    two mutex types. *)

Module WLVKSurfaceData_lock.
Import WLVKSurfaceData.
Local Open Scope Z_scope.

(** A POSIX mutex: its type, the thread that holds it and how many times
    over. *)
Record Mutex := {
  mtype : MutexType;
  owner : option Z;
  depth : nat
}.

(** [pthread_mutex_init] with an attribute of type [k]. *)
Definition pthread_mutex_init (k : MutexType) : Mutex :=
  {| mtype := k; owner := None; depth := 0 |}.

(** [pthread_mutex_lock] either returns with the mutex held or leaves
    the calling thread waiting: for another thread to release it, or,
    with a mutex that is not recursive, for itself. *)
Inductive LockOutcome :=
| Holds (m : Mutex)
| Waits.

Definition pthread_mutex_lock (t : Z) (m : Mutex) : LockOutcome :=
  match owner m with
  | None => Holds {| mtype := mtype m; owner := Some t; depth := 1 |}
  | Some o =>
      if o =? t then
        match mtype m with
        | PTHREAD_MUTEX_RECURSIVE_NP =>
            Holds {| mtype := mtype m; owner := Some t; depth := S (depth m) |}
        | PTHREAD_MUTEX_DEFAULT => Waits
        end
      else Waits
  end.

(** [pthread_mutex_unlock]: one level is given back; a thread that does
    not hold the mutex gets an error and changes nothing. *)
Definition pthread_mutex_unlock (t : Z) (m : Mutex) : Mutex :=
  match owner m with
  | Some o =>
      if o =? t then
        match depth m with
        | S (S d) => {| mtype := mtype m; owner := Some t; depth := S d |}
        | _ => {| mtype := mtype m; owner := None; depth := 0 |}
        end
      else m
  | None => m
  end.

(** The mutex [initOps] creates in the private ops. *)
Definition surface_mutex (ops : VKSDOps) : Mutex := pthread_mutex_init (lock ops).

(** [WLVKSD_Lock] on thread [t]: the mutex of the private ops is locked
    unless the build is [HEADLESS]; the value returned is [SD_SUCCESS]. *)
Definition WLVKSD_Lock_call (headless : bool) (t : Z) (m : Mutex) : LockOutcome :=
  if headless then Holds m else pthread_mutex_lock t m.

(** [WLVKSD_Unlock] on thread [t]. *)
Definition WLVKSD_Unlock_call (headless : bool) (t : Z) (m : Mutex) : Mutex :=
  if headless then m else pthread_mutex_unlock t m.

(** [n] calls of [WLVKSD_Lock] in a row on thread [t]. *)
Fixpoint lock_times (n : nat) (t : Z) (m : Mutex) : LockOutcome :=
  match n with
  | O => Holds m
  | S n' =>
      match WLVKSD_Lock_call false t m with
      | Holds m' => lock_times n' t m'
      | Waits => Waits
      end
  end.

Fixpoint unlock_times (n : nat) (t : Z) (m : Mutex) : Mutex :=
  match n with
  | O => m
  | S n' => unlock_times n' t (WLVKSD_Unlock_call false t m)
  end.

End WLVKSurfaceData_lock.

(** ** The JAWS announcer: the statics over the life of the process *)

Module JawsAnnouncer_lifetime.
Import JawsAnnouncer.

(** What the destructors of the function-local statics do when the
    process exits. *)
Inductive ExitEvent :=
| Release_at_exit (obj : ref)
| CoUninitialize_call.

Section WithWinApi.
Context `{W : WinApi}.

(** The statics after a sequence of calls. *)
Fixpoint run_statics (st : Statics) (calls : list Call) : Statics :=
  match calls with
  | [] => st
  | c :: rest => run_statics (JawsAnnounce st (answers c) (priority c)).1.2 rest
  end.

(** [~ComInitializationWrapper()]. *)
Definition ComInitializationWrapper_destroy (c : ComInitializationWrapper)
  : ComInitializationWrapper * list ExitEvent :=
  if (m_initializeResult c =? S_OK)%Z || (m_initializeResult c =? S_FALSE)%Z
  then ({| m_initializeResult := CO_E_NOTINITIALIZED |}, [CoUninitialize_call])
  else (c, []).

(** [~ComObjectWrapper()]. *)
Definition ComObjectWrapper_destroy (objPtr : option ref)
  : option ref * list ExitEvent :=
  (None, match objPtr with
         | Some obj => [Release_at_exit obj]
         | None => []
         end).

(** The end of the process: statics are destroyed in the reverse order
    of their construction, [pJawsApi] before [comInitializer]. *)
Definition exit_process (st : Statics) : Statics * list ExitEvent :=
  let '(api, ev1) := ComObjectWrapper_destroy (pJawsApi st) in
  let '(ci, ev2) := ComInitializationWrapper_destroy (comInitializer st) in
  ({| comInitThreadId := comInitThreadId st;
      comInitializer := ci;
      pJawsApi := api |}, ev1 ++ ev2).

Definition is_SayString (e : Event) : bool :=
  match e with SayString_call _ => true | _ => false end.

Definition is_GetStringChars (e : Event) : bool :=
  match e with GetStringChars_call => true | _ => false end.

Definition is_SysAllocString (e : Event) : bool :=
  match e with SysAllocString_call => true | _ => false end.

Definition is_ReleaseStringChars (e : Event) : bool :=
  match e with ReleaseStringChars_call => true | _ => false end.

Definition is_SysFreeString (e : Event) : bool :=
  match e with SysFreeString_call => true | _ => false end.

Definition is_CoInitialize (e : Event) : bool :=
  match e with CoInitialize_call => true | _ => false end.

Definition is_CoCreateInstance (e : Event) : bool :=
  match e with CoCreateInstance_call => true | _ => false end.

Definition is_Release (e : Event) : bool :=
  match e with Release_call _ => true | _ => false end.

(** The flag [SayString] is given for a priority. *)
Definition interrupt_flag (priority : Z) : VARIANT_BOOL :=
  if (priority =? ANNOUNCE_WITHOUT_INTERRUPTING_CURRENT_OUTPUT)%Z
  then VARIANT_FALSE else VARIANT_TRUE.

(** A trace without its logging. *)
Definition essence (tr : list Event) : list Event :=
  List.filter (fun e => negb (only_logs e)) tr.

(** What [throw_unless_pending] does besides logging. *)
Definition throws (env : Env) (msg : string) : list Event :=
  ExceptionCheck_call ::
  (if ExceptionCheck env then [] else [ThrowOutOfMemoryError msg]).

(** Whether the string gets spoken once the JAWS object is there, and
    what happens on the way. *)
Definition spoken (env : Env) : bool :=
  bool_decide (GetStringChars env <> None) &&
  bool_decide (SysAllocString env <> None) &&
  negb (FAILED (SayString env).1) && ((SayString env).2 =? VARIANT_TRUE)%Z.

Definition speech_events (env : Env) (priority : Z) : list Event :=
  match GetStringChars env with
  | None =>
      GetStringChars_call ::
      throws env "JawsAnnounce: failed to obtain chars from the announcing string"
  | Some _ =>
      GetStringChars_call ::
      if encodable env then
        [SysAllocString_call; ReleaseStringChars_call] ++
        match SysAllocString env with
        | None =>
            throws env "JawsAnnounce: failed to allocate memory for the announcing string"
        | Some _ => [SayString_call (interrupt_flag priority); SysFreeString_call]
        end
      else []
  end.

(** What a call that gets as far as the string gives its caller. *)
Definition speech_answer (env : Env) : Answer :=
  match GetStringChars env with
  | None => Returns false
  | Some _ => if encodable env then Returns (spoken env) else Never_returns
  end.


Definition is_CoUninitialize (e : ExitEvent) : bool :=
  match e with CoUninitialize_call => true | _ => false end.

(** [CoInitialize] answered with a success that has to be balanced. *)
Definition needs_uninitialize (hr : HRESULT) : bool :=
  (hr =? S_OK)%Z || (hr =? S_FALSE)%Z.

(** The calls of a run in which [CoInitialize] was invoked and answered
    with such a success. *)
Fixpoint balanced_CoInitialize (st : Statics) (calls : list Call) : nat :=
  match calls with
  | [] => 0
  | c :: rest =>
      let '(_, st', tr) := JawsAnnounce st (answers c) (priority c) in
      (if existsb is_CoInitialize tr
          && needs_uninitialize (CoInitialize (answers c))
       then 1 else 0)%nat
      + balanced_CoInitialize st' rest
  end.

End WithWinApi.
(** A system on which the characters of the Java string cannot be
    obtained, seen from thread [t]. *)
Definition no_chars (t : DWORD) : Env :=
  {| GetCurrentThreadId := t;
     CoInitialize := 0%Z;
     CoCreateInstance := (0%Z, Some 1%positive);
     GetStringChars := None;
     encodable := true;
     ExceptionCheck := false;
     SysAllocString := Some 2%positive;
     SayString := (0, -1)%Z |}.

(** A system on which everything succeeds but the conversion of the
    string for the log, seen from thread [t]. *)
Definition not_encodable (t : DWORD) : Env :=
  {| GetCurrentThreadId := t;
     CoInitialize := 0%Z;
     CoCreateInstance := (0%Z, Some 1%positive);
     GetStringChars := Some [55357; 104]%Z;
     encodable := false;
     ExceptionCheck := false;
     SysAllocString := Some 2%positive;
     SayString := (0, -1)%Z |}.

(** The statics after a first successful call on thread 7. *)
Definition statics_ready : Statics :=
  {| comInitThreadId := Some 7%Z;
     comInitializer := {| m_initializeResult := 0%Z |};
     pJawsApi := Some 1%positive |}.

End JawsAnnouncer_lifetime.

(** ** The logger of the JAWS announcer

    [Idea321176Logger::TLSBuffer], the thread-local buffer in which
    [logEntry] builds the text it prints.  The allocator is outside the
    program: each call of [safe_Realloc] is answered from a list. *)

Module Idea321176Logger.
Local Open Scope Z_scope.

(** A [char] is its code; 0 ends a C string. *)
Definition char := Z.

(** [size_t] is 64 bits wide. *)
Definition to_size_t (z : Z) : Z := z mod 2 ^ 64.

(** The largest [int]. *)
Definition INT_MAX : Z := 2 ^ 31 - 1.

(** [TLSBuffer]: the storage ([None] is [nullptr]), the number of
    characters in use and the size of the storage. *)
Record TLSBuffer := {
  buffer_ : option (list char);
  length_ : Z;
  charsCapacity_ : Z
}.

(** The constructor. *)
Definition TLSBuffer_new : TLSBuffer :=
  {| buffer_ := None; length_ := 0; charsCapacity_ := 0 |}.

(** [freeImpl()]. *)
Definition freeImpl (b : TLSBuffer) : TLSBuffer := TLSBuffer_new.

(** [resetImpl()]. *)
Definition resetImpl (b : TLSBuffer) : TLSBuffer :=
  {| buffer_ := if 0 <? charsCapacity_ b
                then (fun arr => <[0%nat := 0]> arr) <$> buffer_ b
                else buffer_ b;
     length_ := 0;
     charsCapacity_ := charsCapacity_ b |}.

(** What [safe_Realloc] answers: it fails (by [nullptr] or by an
    exception, which [reallocImpl] catches), or it gives a block that
    holds the old characters, followed by whatever [fill] the new memory
    contains. *)
Inductive Realloc :=
| Realloc_fails
| Realloc_gives (fill : nat -> char).

Definition resized (old : list char) (n : nat) (fill : nat -> char) : list char :=
  take n old ++ map fill (seq 0 (n - length old)).

(** [reallocImpl(newCharsCapacity)]. *)
Definition reallocImpl (newCharsCapacity : Z) (r : Realloc) (b : TLSBuffer) : TLSBuffer :=
  match r with
  | Realloc_fails => freeImpl b
  | Realloc_gives fill =>
      let arr := resized (default [] (buffer_ b)) (Z.to_nat newCharsCapacity) fill in
      if newCharsCapacity <? 1 then
        {| buffer_ := Some arr; length_ := 0; charsCapacity_ := 0 |}
      else if newCharsCapacity <? length_ b then
        {| buffer_ := Some (<[Z.to_nat (newCharsCapacity - 1) := 0]> arr);
           length_ := newCharsCapacity - 1;
           charsCapacity_ := newCharsCapacity |}
      else
        {| buffer_ := Some arr; length_ := length_ b;
           charsCapacity_ := newCharsCapacity |}
  end.

(** The [getFreeSpace] lambda of [appendFormattedImpl]. *)
Definition getFreeSpace (b : TLSBuffer) : Z :=
  if length_ b <? charsCapacity_ b
  then charsCapacity_ b - length_ b - 1
  else 0.

(** [l] written over [arr] from index [off] on. *)
Definition overwrite (arr : list char) (off : nat) (l : list char) : list char :=
  take off arr ++ l ++ drop (off + length l) arr.

(** What [snprintf] makes of a format and its values: a text, or an
    encoding error.  The error is that of [%ls], the format of the
    [const wchar_t*] overload of [appendFormatted], on a wide string with
    a character that cannot be converted; [junk] is what [snprintf] has
    put into the buffer by then.  The other formats ([%c], [%s],
    [%lld], [%llu], [%f], [%Lf], [0x%p] and that of [SYSTEMTIME]) give a
    text. *)
Inductive Formatted :=
| Text (text : list char)
| Encoding_error (junk : list char).

(** [snprintf(buffer_ + length_, getFreeSpace(), ...)]: with a size of 0
    nothing is written; otherwise as much of the text as fits before the
    terminating 0 or, on an encoding error, as much of the junk as fits
    into the size. *)
Definition snprintf_into (b : TLSBuffer) (f : Formatted) : TLSBuffer :=
  let n := getFreeSpace b in
  {| buffer_ :=
       if 0 <? n
       then (fun arr => overwrite arr (Z.to_nat (length_ b))
                          match f with
                          | Text text => take (Z.to_nat (n - 1)) text ++ [0]
                          | Encoding_error junk => take (Z.to_nat n) junk
                          end) <$> buffer_ b
       else buffer_ b;
     length_ := length_ b;
     charsCapacity_ := charsCapacity_ b |}.

(** What [snprintf] returns: the length of the formatted output, or a
    negative value when an [int] cannot hold it or on an encoding
    error. *)
Definition snprintf_result (f : Formatted) : Z :=
  match f with
  | Text text =>
      if Z.of_nat (length text) <=? INT_MAX then Z.of_nat (length text) else -1
  | Encoding_error _ => -1
  end.

(** The [while] loop of [appendFormattedImpl] and the two statements
    after it.  Each turn asks for one reallocation; [reallocs] are the
    answers the allocator is going to give, and [None] says that the
    loop is still running when they are used up. *)
Fixpoint append_loop (reallocs : list Realloc) (f : Formatted)
    (written : Z) (b : TLSBuffer) : option (TLSBuffer * list Realloc) :=
  if (written <? 0) || (getFreeSpace b <=? written) then
    match reallocs with
    | [] => None
    | r :: rest =>
        let b1 := reallocImpl (if charsCapacity_ b <? 1 then 1024
                               else to_size_t (charsCapacity_ b * 2)) r b in
        append_loop rest f (snprintf_result f) (snprintf_into b1 f)
    end
  else
    Some ({| buffer_ := (fun arr => <[Z.to_nat (length_ b + written) := 0]> arr)
                          <$> buffer_ b;
             length_ := length_ b + written;
             charsCapacity_ := charsCapacity_ b |},
          reallocs).

(** [appendFormattedImpl(formatStr, params...)]; [f] is what [snprintf]
    makes of the format and the parameters. *)
Definition appendFormattedImpl (reallocs : list Realloc) (f : Formatted)
    (b : TLSBuffer) : option (TLSBuffer * list Realloc) :=
  if (0 <? charsCapacity_ b) && (length_ b <? charsCapacity_ b) then
    append_loop reallocs f (snprintf_result f) (snprintf_into b f)
  else
    append_loop reallocs f (-1) b.

(** [getPayload()]: [None] is the view [{ nullptr, 0 }]. *)
Definition getPayload (b : TLSBuffer) : option (list char * Z) :=
  match buffer_ b with
  | None => None
  | Some arr => if length_ b <? 1 then None else Some (arr, length_ b)
  end.

(** The characters in use. *)
Definition payload (b : TLSBuffer) : list char :=
  take (Z.to_nat (length_ b)) (default [] (buffer_ b)).

(** The buffer is consistent: no storage and nothing in use, or a
    storage of the recorded size with the characters in use ended by a
    0 inside it. *)
Definition buffer_ok (b : TLSBuffer) : Prop :=
  match buffer_ b with
  | None => length_ b = 0 /\ charsCapacity_ b = 0
  | Some arr =>
      Z.of_nat (length arr) = charsCapacity_ b /\
      0 <= length_ b < charsCapacity_ b /\
      arr !! Z.to_nat (length_ b) = Some 0
  end.

(** The pieces of an entry appended one after the other, as the
    variadic [appendFormatted] does. *)
Fixpoint append_all (reallocs : list Realloc) (pieces : list Formatted)
    (b : TLSBuffer) : option (TLSBuffer * list Realloc) :=
  match pieces with
  | [] => Some (b, reallocs)
  | f :: rest =>
      match appendFormattedImpl reallocs f b with
      | Some (b', reallocs') => append_all reallocs' rest b'
      | None => None
      end
  end.

Definition all_succeed (reallocs : list Realloc) : Prop :=
  Forall (fun r => r <> Realloc_fails) reallocs.

Definition all_fail (reallocs : list Realloc) : Prop :=
  Forall (fun r => r = Realloc_fails) reallocs.


(** The buffer holds the characters [P], whatever comes after them. *)
Definition holds (P : list char) (b : TLSBuffer) : Prop :=
  match buffer_ b with
  | None => length_ b = 0 /\ charsCapacity_ b = 0 /\ P = []
  | Some arr =>
      Z.of_nat (length arr) = charsCapacity_ b /\
      0 <= length_ b < charsCapacity_ b /\
      take (Z.to_nat (length_ b)) arr = P
  end.

(** What the loop knows about [written]: nothing was printed yet, or
    [text] was, and is in the storage if it fitted. *)
Definition printed (P text : list char) (written : Z) (b : TLSBuffer) : Prop :=
  written = -1 /\ buffer_ b = None \/
  written = Z.of_nat (length text) /\
  (written < getFreeSpace b ->
   take (Z.to_nat (length_ b + written)) (default [] (buffer_ b)) = P ++ text).

(** The capacity after [n] more turns of the loop, each asking for
    [(charsCapacity_ < 1) ? 1024 : (charsCapacity_ * 2)]. *)
Fixpoint grown (cap : Z) (n : nat) : Z :=
  match n with
  | O => cap
  | S n' => grown (if cap <? 1 then 1024 else cap * 2) n'
  end.

(** The weaker consistency that every operation keeps, whatever the
    allocator answers. *)
Definition sane (b : TLSBuffer) : Prop :=
  0 <= length_ b <= charsCapacity_ b /\
  match buffer_ b with
  | None => charsCapacity_ b = 0
  | Some arr => Z.of_nat (length arr) = charsCapacity_ b
  end.

(** The C string that starts an array: the characters before the first 0. *)
Fixpoint c_string (arr : list char) : list char :=
  match arr with
  | [] => []
  | c :: rest => if c =? 0 then [] else c :: c_string rest
  end.

Definition chars_of (s : string) : list char :=
  map (fun a => Z.of_N (Ascii.N_of_ascii a)) (list_ascii_of_string s).

(** What [javaSystemErrPrint] needs from the JVM: [jvm] is set,
    [JNU_GetEnv] gives an environment, [System.err] is read without an
    exception, [NewStringUTF] gives a string. *)
Record Jvm := {
  jvm : bool;
  JNU_GetEnv : bool;
  System_err : bool;
  NewStringUTF : bool
}.

(** [javaSystemErrPrint(utf8Str, charsLen)]: the text handed to
    [System.err.print], if any.  [NewStringUTF] reads the C string at
    [utf8Str]; [charsLen] is not used. *)
Definition javaSystemErrPrint (J : Jvm) (utf8Str : list char) (charsLen : Z)
    : option (list char) :=
  if negb (jvm J) then None
  else if negb (JNU_GetEnv J) then None
  else if negb (System_err J) then None
  else if negb (NewStringUTF J) then None
  else Some (c_string utf8Str).

Definition errStr : list char :=
  chars_of "Idea321176Logger::logEntry: FAILED TO CONSTRUCT A STRING TO LOG" ++ [0].

Definition errStrLen : Z := Z.of_nat (length errStr) - 1.

(** The texts of an entry whose values are all formatted: [threadId]
    and [dateTime] are the formatted thread id and time. *)
Definition entry_texts (threadId dateTime : list char)
    (values : list (list char)) : list (list char) :=
  chars_of "[" :: threadId :: chars_of "] [" :: dateTime :: chars_of "] "
    :: values ++ [[10]].

(** The values [logEntry] appends first.  The thread id is formatted
    with [%llu] and the time with [%02u.%02u.%u %02u:%02u:%02u.%03u]. *)
Definition entry_pieces (threadId dateTime : list char)
    (val1 : Formatted) (values : list Formatted) : list Formatted :=
  Text (chars_of "[") :: Text threadId :: Text (chars_of "] [")
    :: Text dateTime :: Text (chars_of "] ") :: val1 :: values ++ [Text [10]].

(** [logEntry(val1, values...)]: what is handed to [System.err.print],
    the buffer and the allocator's remaining answers; [None] when an
    append is still running. *)
Definition logEntry (reallocs : list Realloc) (J : Jvm)
    (threadId dateTime : list char) (val1 : Formatted)
    (values : list Formatted) (b : TLSBuffer)
    : option (option (list char) * TLSBuffer * list Realloc) :=
  match append_all reallocs (entry_pieces threadId dateTime val1 values)
          (resetImpl b) with
  | None => None
  | Some (b1, r1) =>
      match appendFormattedImpl r1 (Text [10]) b1 with
      | None => None
      | Some (b2, r2) =>
          Some (match getPayload b2 with
                | None => javaSystemErrPrint J errStr errStrLen
                | Some (payloadUtf8, payloadLength) =>
                    if payloadLength <? 1
                    then javaSystemErrPrint J errStr errStrLen
                    else javaSystemErrPrint J payloadUtf8 payloadLength
                end, b2, r2)
      end
  end.

(** A JVM on which printing works, and an allocator answer with zeroed
    memory. *)
Definition jvm_ok : Jvm :=
  {| jvm := true; JNU_GetEnv := true; System_err := true; NewStringUTF := true |}.

Definition zeroed : Realloc := Realloc_gives (fun _ => 0).

(** A buffer of four characters that holds "ab". *)
Definition buffer_ab : TLSBuffer :=
  {| buffer_ := Some [97; 98; 0; 0]; length_ := 2; charsCapacity_ := 4 |}.

End Idea321176Logger.

(** ** A concrete configuration, for the examples

    Statistics off, a stage heap that only counts [dispose()] calls. *)
Module Example_config.

#[export] Instance consts : MarlinConst := {|
  DO_STATS := false;
  DO_MONITORS := false;
  LOG_CREATE_CONTEXT := false;
  WIND_NON_ZERO := 1;
  INITIAL_EDGES_COUNT := 4096;
  USE_DPQS := true
|}.

#[export] Instance counting_stages : Stages := {|
  StageHeap := list ref;
  NormalizingPathIterator_dispose := cons;
  Dasher_dispose := cons;
  Stroker_dispose := cons
|}.

(** A context created at identity [1] and the heap it finds. *)
Definition ctx0 : RendererContext.RendererContext :=
  fst (RendererContext.RendererContext_new 1%positive).

Definition heap0 : RendererContext.Heap :=
  {| RendererContext.paths := ∅;
     RendererContext.weakRefs := ∅;
     RendererContext.stages := [];
     RendererContext.nextRef := snd (RendererContext.RendererContext_new 1%positive) |}.

End Example_config.

(* ===================================================================== *)
(** * Part II: theorems                                                   *)
(* ===================================================================== *)

(** ** [RendererContext] *)

Section RendererContext_theorems.
Import RendererContext.
Context `{MC : MarlinConst} `{ST : Stages}.

(** The constructor yields a well-formed context. *)
Lemma RendererContext_new_wf (a : ref) :
  ctx_wf (fst (RendererContext_new a)).
Proof.
  split.
  - cbn. intros ->. discriminate.
  - unfold stage_refs, RendererContext_new, offset; cbn.
    repeat (apply NoDup_cons_2; [ rewrite ?elem_of_cons, elem_of_nil; lia | ]).
    apply NoDup_nil_2.
Qed.

(** [dispose()] returns on every well-formed context. *)
Lemma dispose_stats_returns ctx :
  ctx_wf ctx ->
  exists ctx1, dispose_stats ctx = Returned ctx1 /\
               dirty ctx1 = dirty ctx /\
               stage_refs ctx1 = stage_refs ctx /\
               refPath2D ctx1 = refPath2D ctx.
Proof.
  intros [Hs _]. unfold dispose_stats.
  destruct DO_STATS.
  - destruct (stats ctx) as [s|]; [ | exfalso; now apply Hs ].
    eexists; split; [ reflexivity | now cbn ].
  - eexists; split; [ reflexivity | now cbn ].
Qed.

(** The renderer and the cache are none of the four force-reset stages. *)
Lemma renderer_cache_apart ctx :
  ctx_wf ctx ->
  let four := [nPCPathIterator ctx; nPQPathIterator ctx; dasher ctx; stroker ctx] in
  ~ In (renderer ctx) four /\ ~ In (cache ctx) four.
Proof.
  intros [_ Hnd]. unfold stage_refs in Hnd.
  rewrite !NoDup_cons, !elem_of_cons in Hnd.
  cbn. intuition congruence.
Qed.

(** C1.  On a well-formed context [dispose()] returns, and the context it
    leaves is clean, whatever the initial state.  When the context was
    dirty, the stages it force-resets are exactly the two normalizing path
    iterators, the dasher and the stroker, in this order; the renderer and
    the coverage cache are not among the receivers, and the path objects
    and weak references are left alone.  When the context was clean,
    no stage is reset at all. *)
Theorem dispose_force_resets_exactly_four_stages
    (ctx : RendererContext) (h : Heap) :
  ctx_wf ctx ->
  exists ctx' h' tr,
    dispose ctx h = Returned (ctx', h', tr) /\
    dirty ctx' = false /\
    (if dirty ctx
     then tr = [ Call_NormalizingPathIterator_dispose (nPCPathIterator ctx);
                 Call_NormalizingPathIterator_dispose (nPQPathIterator ctx);
                 Call_Dasher_dispose (dasher ctx);
                 Call_Stroker_dispose (stroker ctx) ]
          /\ stages h' =
             Stroker_dispose (stroker ctx)
               (Dasher_dispose (dasher ctx)
                  (NormalizingPathIterator_dispose (nPQPathIterator ctx)
                     (NormalizingPathIterator_dispose (nPCPathIterator ctx)
                        (stages h))))
     else tr = [] /\ h' = h) /\
    ~ In (renderer ctx) (map receiver tr) /\
    ~ In (cache ctx) (map receiver tr) /\
    paths h' = paths h /\ weakRefs h' = weakRefs h /\ nextRef h' = nextRef h.
Proof.
  intros Hwf.
  destruct (dispose_stats_returns ctx Hwf) as (ctx1 & E & Hd & Hr & _).
  destruct (renderer_cache_apart ctx Hwf) as [Hren Hcache].
  unfold dispose. rewrite E. unfold dispose_dirty.
  assert (Hd' : dirty (reset_per_operation ctx1) = dirty ctx) by exact Hd.
  rewrite Hd'.
  unfold stage_refs in Hr. injection Hr as H1 H2 H3 H4 _ _ _ _.
  destruct (dirty ctx) eqn:Edirty.
  - do 3 eexists. split; [ reflexivity | ].
    cbn [reset_per_operation assign set_dirty dirty nPCPathIterator
         nPQPathIterator dasher stroker set_stages stages paths weakRefs
         nextRef map receiver].
    rewrite H1, H2, H3, H4.
    repeat split; assumption.
  - do 3 eexists. split; [ reflexivity | ].
    repeat split; try assumption; cbn; tauto.
Qed.

(** Whenever [dispose()] returns, the context it leaves is clean. *)
Lemma dispose_leaves_clean ctx h ctx' h' tr :
  dispose ctx h = Returned (ctx', h', tr) -> dirty ctx' = false.
Proof.
  unfold dispose. destruct (dispose_stats ctx) as [ctx1|]; [ | discriminate ].
  unfold dispose_dirty.
  destruct (dirty (reset_per_operation ctx1)) eqn:E; intros [= <- <- <-].
  - reflexivity.
  - exact E.
Qed.

(** C6.  [dispose()] resets the per-operation state in every well-formed
    initial state, dirty or not: [stroking] to 0, [doClip] and
    [closedPath] to false, [clipInvScale] to 0.0 and [firstFlags] to 0.
    The context keeps its stage objects: renderer, stroker, dasher, cache
    and both tile generators are the same objects after the reset as
    before it, as are the two path iterators. *)
Theorem dispose_resets_state_and_keeps_stage_objects
    (ctx : RendererContext) (h : Heap) :
  ctx_wf ctx ->
  exists ctx' h' tr,
    dispose ctx h = Returned (ctx', h', tr) /\
    stroking ctx' = 0%Z /\ doClip ctx' = false /\ closedPath ctx' = false /\
    clipInvScale ctx' = dzero /\ firstFlags ctx' = 0%Z /\
    renderer ctx' = renderer ctx /\ stroker ctx' = stroker ctx /\
    dasher ctx' = dasher ctx /\ cache ctx' = cache ctx /\
    ptg ctx' = ptg ctx /\ ftg ctx' = ftg ctx /\
    nPCPathIterator ctx' = nPCPathIterator ctx /\
    nPQPathIterator ctx' = nPQPathIterator ctx /\
    ctx_wf ctx'.
Proof.
  intros Hwf.
  destruct (dispose_stats_returns ctx Hwf) as (ctx1 & E & Hd & Hr & _).
  assert (Hstats : DO_STATS = true -> stats ctx1 <> None).
  { unfold dispose_stats in E. destruct Hwf as [Hs _].
    destruct DO_STATS; [ | discriminate ].
    destruct (stats ctx); [ | discriminate ].
    injection E as <-. discriminate. }
  unfold dispose. rewrite E. unfold dispose_dirty.
  unfold stage_refs in Hr.
  injection Hr as H1 H2 H3 H4 H5 H6 H7 H8.
  assert (Hnd : NoDup (stage_refs ctx1)).
  { unfold stage_refs. rewrite H1, H2, H3, H4, H5, H6, H7, H8. apply Hwf. }
  destruct (dirty (reset_per_operation ctx1)); do 3 eexists;
    (split; [ reflexivity | ]); cbn;
    repeat split; try assumption; try reflexivity.
Qed.

(** *** [getPath2D()] *)

Lemma WeakReference_get_Some w h p :
  WeakReference_get w h = Some p <-> weakRefs h !! w = Some (Some p).
Proof.
  unfold WeakReference_get.
  destruct (weakRefs h !! w) as [[q|]|]; split; congruence.
Qed.

(** The branch that reuses the referent. *)
Lemma getPath2D_reuse ctx h p :
  resolve ctx h = Some p ->
  exists tr, getPath2D ctx h = (p, ctx, heap_reset_path p h, tr) /\
             forall e, In e tr -> e = Call_Path2D_reset p \/
                                  exists w, e = Call_WeakReference_get w.
Proof.
  unfold resolve, getPath2D. intros H.
  destruct (refPath2D ctx) as [w|]; [ | discriminate ].
  rewrite H. eexists. split; [ reflexivity | ].
  cbn. intros e [<-|[<-|[]]]; eauto.
Qed.

(** The branch that creates a new path. *)
Lemma getPath2D_create ctx h :
  resolve ctx h = None ->
  let p := nextRef h in
  let w := Pos.succ (nextRef h) in
  exists tr,
    getPath2D ctx h =
      (p, set_refPath2D (Some w) ctx,
       {| paths := <[p := Path2D_Double_new WIND_NON_ZERO INITIAL_EDGES_COUNT]> (paths h);
          weakRefs := <[w := Some p]> (weakRefs h);
          stages := stages h;
          nextRef := Pos.succ (Pos.succ (nextRef h)) |}, tr) /\
    In (New_Path2D_Double p WIND_NON_ZERO INITIAL_EDGES_COUNT) tr.
Proof.
  unfold resolve, getPath2D. intros H.
  assert (E : match refPath2D ctx with
              | Some w => (WeakReference_get w h, [Call_WeakReference_get w])
              | None => (None, [])
              end = (None, match refPath2D ctx with
                           | Some w => [Call_WeakReference_get w]
                           | None => []
                           end)).
  { destruct (refPath2D ctx); [ now rewrite H | reflexivity ]. }
  rewrite E. cbn. unfold heap_reset_path. cbn.
  eexists. split.
  - f_equal. f_equal. f_equal.
    apply map_eq. intros i. rewrite lookup_alter.
    destruct (decide (nextRef h = i)) as [<-|Hne].
    + now rewrite !lookup_insert_eq.
    + now rewrite !lookup_insert_ne.
  - apply in_or_app. right. now left.
Qed.

Lemma getPath2D_wf ctx h :
  heap_wf h -> heap_wf (getPath2D ctx h).1.2.
Proof.
  intros (Hp & Hw & Hl).
  destruct (resolve ctx h) as [p|] eqn:E.
  - destruct (getPath2D_reuse ctx h p E) as (tr & -> & _). cbn.
    repeat split; cbn.
    + intros q Hq. apply lookup_alter_is_Some in Hq. now apply Hp.
    + exact Hw.
    + intros w q Hq. apply lookup_alter_is_Some. eauto.
  - destruct (getPath2D_create ctx h E) as (tr & -> & _). cbn.
    repeat split; cbn.
    + intros q Hq. destruct (decide (nextRef h = q)) as [<-|Hne]; [ lia | ].
      rewrite lookup_insert_ne in Hq by exact Hne.
      specialize (Hp q Hq). lia.
    + intros w Hq. destruct (decide (Pos.succ (nextRef h) = w)) as [<-|Hne]; [ lia | ].
      rewrite lookup_insert_ne in Hq by exact Hne.
      specialize (Hw w Hq). lia.
    + intros w q Hq.
      destruct (decide (Pos.succ (nextRef h) = w)) as [<-|Hne].
      * rewrite lookup_insert_eq in Hq. injection Hq as <-.
        rewrite lookup_insert_eq. eauto.
      * rewrite lookup_insert_ne in Hq by exact Hne.
        destruct (decide (nextRef h = q)) as [<-|Hne'].
        -- rewrite lookup_insert_eq. eauto.
        -- rewrite lookup_insert_ne by exact Hne'. eauto.
Qed.

(** The collector keeps the heap well formed. *)
Lemma collect_wf garbage h :
  heap_wf h -> heap_wf (collect garbage h).
Proof.
  intros (Hp & Hw & Hl). repeat split; cbn.
  - intros p [x Hx]. apply map_lookup_filter_Some in Hx as [Hx _]. eauto.
  - intros w Hx. rewrite lookup_fmap in Hx. apply fmap_is_Some in Hx. eauto.
  - intros w p Hx. rewrite lookup_fmap in Hx.
    destruct (weakRefs h !! w) as [[q|]|] eqn:E; cbn in Hx; try discriminate.
    destruct (decide (q ∈ garbage)) as [|Hq]; [ discriminate | ].
    injection Hx as ->.
    destruct (Hl w p E) as [x Hx]. exists x.
    apply map_lookup_filter_Some. split; [ exact Hx | exact Hq ].
Qed.

(** C8.  Whichever branch it takes, [getPath2D()] returns a path object
    that exists on the heap and is in the reset (empty) state: its state
    is what [reset()] leaves, with no segment, and [reset()] on it is the
    last event of the call. *)
Theorem getPath2D_returns_reset_path
    (ctx : RendererContext) (h : Heap) p ctx' h' tr :
  heap_wf h ->
  getPath2D ctx h = (p, ctx', h', tr) ->
  exists path,
    paths h' !! p = Some path /\
    (exists before, path = Path2D_reset before) /\
    Path2D_isEmpty path = true /\
    exists tr0, tr = tr0 ++ [Call_Path2D_reset p].
Proof.
  intros (Hp & Hw & Hl) Hcall.
  unfold getPath2D in Hcall.
  destruct (resolve ctx h) as [q|] eqn:E.
  - unfold resolve in E. destruct (refPath2D ctx) as [w|]; [ | discriminate ].
    rewrite E in Hcall. injection Hcall as <- <- <- <-.
    apply WeakReference_get_Some in E.
    destruct (Hl w q E) as [path Hpath].
    exists (Path2D_reset path). repeat split.
    + cbn. now rewrite lookup_alter_eq, Hpath.
    + now exists path.
    + now exists [Call_WeakReference_get w].
  - assert (Hnone : (match refPath2D ctx with
                     | Some w => (WeakReference_get w h, [Call_WeakReference_get w])
                     | None => (None, [])
                     end).1 = None).
    { unfold resolve in E. destruct (refPath2D ctx); [ exact E | reflexivity ]. }
    destruct (match refPath2D ctx with
              | Some w => (WeakReference_get w h, [Call_WeakReference_get w])
              | None => (None, [])
              end) as [o ev0]. cbn in Hnone. subst o.
    cbn in Hcall. injection Hcall as <- <- <- <-.
    exists (Path2D_reset (Path2D_Double_new WIND_NON_ZERO INITIAL_EDGES_COUNT)).
    repeat split.
    + cbn. rewrite lookup_alter_eq, lookup_insert_eq. reflexivity.
    + now eexists.
    + exists (ev0 ++ [New_Path2D_Double (nextRef h) WIND_NON_ZERO INITIAL_EDGES_COUNT;
                      New_WeakReference (Pos.succ (nextRef h)) (nextRef h)]).
      rewrite <- app_assoc. reflexivity.
Qed.

(** C7, as the code has it.  The recyclable path is held through a weak
    reference.  When the reference is set and its referent has not been
    collected, [getPath2D()] returns that very instance and creates
    nothing.  When the reference is null or has been cleared, it takes the
    other branch: it creates a new instance, which no live object is, and
    leaves a new weak reference to it in [refPath2D].  In both cases a
    second call with no collection in between returns the same instance. *)
Theorem getPath2D_same_instance_while_not_collected
    (ctx : RendererContext) (h : Heap) p ctx' h' tr :
  heap_wf h ->
  getPath2D ctx h = (p, ctx', h', tr) ->
  (forall p0, resolve ctx h = Some p0 ->
     p = p0 /\ ctx' = ctx /\ nextRef h' = nextRef h /\
     ~ exists r c, In (New_Path2D_Double p r c) tr) /\
  (resolve ctx h = None ->
     paths h !! p = None /\
     In (New_Path2D_Double p WIND_NON_ZERO INITIAL_EDGES_COUNT) tr /\
     exists w, weakRefs h !! w = None /\ refPath2D ctx' = Some w /\
               weakRefs h' !! w = Some (Some p)) /\
  resolve ctx' h' = Some p /\
  (getPath2D ctx' h').1.1.1 = p.
Proof.
  intros Hwf Hcall.
  assert (Hres : resolve ctx' h' = Some p).
  { destruct (resolve ctx h) as [q|] eqn:E.
    - destruct (getPath2D_reuse ctx h q E) as (tr' & Hq & _).
      rewrite Hq in Hcall. injection Hcall as <- <- <- <-. exact E.
    - destruct (getPath2D_create ctx h E) as (tr' & Hq & _).
      rewrite Hq in Hcall. injection Hcall as <- <- <- <-.
      unfold resolve. cbn. apply WeakReference_get_Some. cbn.
      apply lookup_insert_eq. }
  repeat split.
  - destruct (getPath2D_reuse ctx h p0 H) as (tr' & Hq & _). congruence.
  - destruct (getPath2D_reuse ctx h p0 H) as (tr' & Hq & _). congruence.
  - destruct (getPath2D_reuse ctx h p0 H) as (tr' & Hq & _).
    rewrite Hq in Hcall. now injection Hcall as <- <- <- <-.
  - destruct (getPath2D_reuse ctx h p0 H) as (tr' & Hq & Htr).
    rewrite Hq in Hcall. injection Hcall as <- <- <- <-.
    intros (r & c & Hin). destruct (Htr _ Hin) as [|[w ?]]; discriminate.
  - destruct (getPath2D_create ctx h H) as (tr' & Hq & _).
    rewrite Hq in Hcall. injection Hcall as <- <- <- <-.
    destruct Hwf as (Hp & _).
    apply eq_None_not_Some. intros Hs. specialize (Hp _ Hs). lia.
  - destruct (getPath2D_create ctx h H) as (tr' & Hq & Hin).
    rewrite Hq in Hcall. now injection Hcall as <- <- <- <-.
  - destruct (getPath2D_create ctx h H) as (tr' & Hq & _).
    rewrite Hq in Hcall. injection Hcall as <- <- <- <-.
    exists (Pos.succ (nextRef h)). cbn. repeat split.
    + destruct Hwf as (_ & Hw & _).
      apply eq_None_not_Some. intros Hs. specialize (Hw _ Hs). lia.
    + apply lookup_insert_eq.
  - exact Hres.
  - destruct (getPath2D_reuse ctx' h' p Hres) as (tr' & -> & _). reflexivity.
Qed.

End RendererContext_theorems.

(** *** The theorems at a concrete context *)

Section RendererContext_examples.
Import RendererContext Example_config.

Lemma ctx0_wf : ctx_wf ctx0.
Proof. apply RendererContext_new_wf. Qed.

Lemma dirty_ctx0_wf : ctx_wf (set_dirty true ctx0).
Proof. exact ctx0_wf. Qed.

Lemma heap0_wf : heap_wf heap0.
Proof.
  repeat split; cbn; intros *; rewrite lookup_empty;
    first [ intros [? ?]; discriminate | discriminate ].
Qed.

(** A dirty context: the four stages are reset, the flag is cleared. *)
Example dispose_dirty_ctx0 :
  dispose (set_dirty true ctx0) heap0 =
  Returned (ctx0, set_stages [21; 22; 13; 12]%positive heap0,
            [ Call_NormalizingPathIterator_dispose 12;
              Call_NormalizingPathIterator_dispose 13;
              Call_Dasher_dispose 22;
              Call_Stroker_dispose 21 ]%positive).
Proof. reflexivity. Qed.

Lemma dispose_force_resets_exactly_four_stages_witness :
  ctx_wf (set_dirty true ctx0) /\
  exists ctx' h' tr,
    dispose (set_dirty true ctx0) heap0 = Returned (ctx', h', tr) /\
    dirty ctx' = false.
Proof.
  split; [ exact dirty_ctx0_wf | ].
  destruct (dispose_force_resets_exactly_four_stages
              (set_dirty true ctx0) heap0 dirty_ctx0_wf)
    as (ctx' & h' & tr & H1 & H2 & _).
  exists ctx', h', tr. split; assumption.
Defined.

Lemma dispose_resets_state_and_keeps_stage_objects_witness :
  ctx_wf (set_dirty true ctx0) /\
  exists ctx' h' tr,
    dispose (set_dirty true ctx0) heap0 = Returned (ctx', h', tr) /\
    stroking ctx' = 0%Z /\ renderer ctx' = renderer (set_dirty true ctx0).
Proof.
  split; [ exact dirty_ctx0_wf | ].
  destruct (dispose_resets_state_and_keeps_stage_objects
              (set_dirty true ctx0) heap0 dirty_ctx0_wf)
    as (ctx' & h' & tr & H1 & H2 & _ & _ & _ & _ & H3 & _).
  exists ctx', h', tr. repeat split; assumption.
Defined.

(** The first call on a new context creates path 24 and weak reference 25. *)
Example getPath2D_first_call :
  (getPath2D ctx0 heap0).1.1.1 = 24%positive /\
  refPath2D (getPath2D ctx0 heap0).1.1.2 = Some 25%positive.
Proof. split; reflexivity. Qed.

Lemma getPath2D_returns_reset_path_witness :
  heap_wf heap0 /\
  exists path,
    paths (getPath2D ctx0 heap0).1.2 !! (getPath2D ctx0 heap0).1.1.1 = Some path /\
    Path2D_isEmpty path = true.
Proof.
  split; [ exact heap0_wf | ].
  destruct (getPath2D_returns_reset_path ctx0 heap0 _ _ _ _ heap0_wf eq_refl)
    as (path & H1 & _ & H2 & _).
  exists path. split; assumption.
Defined.

Lemma getPath2D_same_instance_while_not_collected_witness :
  heap_wf heap0 /\
  (getPath2D (getPath2D ctx0 heap0).1.1.2 (getPath2D ctx0 heap0).1.2).1.1.1
  = (getPath2D ctx0 heap0).1.1.1.
Proof.
  split; [ exact heap0_wf | ].
  exact (proj2 (proj2 (proj2
    (getPath2D_same_instance_while_not_collected ctx0 heap0 _ _ _ _
       heap0_wf eq_refl)))).
Defined.

(** C7, as the specification words it, fails: the path is not owned by
    the context.  After a first call returned path 24, the caller drops
    it and the collector reclaims it; the context's weak reference is
    then cleared, the next call finds nothing to reuse although
    [refPath2D] is set, creates path 26 and returns this other
    instance. *)
Lemma getPath2D_other_instance_after_collection :
  let '(p1, ctx1, h1, _) := getPath2D ctx0 heap0 in
  let h2 := collect {[ p1 ]} h1 in
  let '(p2, _, _, tr2) := getPath2D ctx1 h2 in
  heap_wf h2 /\
  refPath2D ctx1 = Some 25%positive /\
  resolve ctx1 h2 = None /\
  p1 = 24%positive /\ p2 = 26%positive /\ p2 <> p1 /\
  In (New_Path2D_Double p2 WIND_NON_ZERO INITIAL_EDGES_COUNT) tr2.
Proof.
  pose proof (collect_wf {[ 24%positive ]} _
                (getPath2D_wf ctx0 heap0 heap0_wf)) as Hwf.
  vm_compute in Hwf. vm_compute.
  repeat split; try exact Hwf; try discriminate; try apply Hwf; auto.
Qed.

End RendererContext_examples.

(** ** [WLVKSurfaceData.initOps] *)

Section WLVKSurfaceData_theorems.
Import WLVKSurfaceData.
Local Open Scope Z_scope.

(** A surface whose ops were filled in got past the [NULL] check. *)
Lemma initOps_initialized_reaches_clamp env w h rgb :
  is_Some (vsdo (Java_sun_java2d_vulkan_WLVKSurfaceData_initOps env w h rgb)) ->
  reaches_clamp env = true.
Proof.
  unfold Java_sun_java2d_vulkan_WLVKSurfaceData_initOps, reaches_clamp.
  destruct (HEADLESS env); cbn; [ intros [? ?]; discriminate | ].
  destruct (SurfaceData_InitOps env); cbn; [ reflexivity | ].
  intros [? ?]; discriminate.
Qed.

(** The two [if]s of the clamp, on any execution that reaches them. *)
Lemma initOps_clamp env w h rgb :
  reaches_clamp env = true ->
  width (Java_sun_java2d_vulkan_WLVKSurfaceData_initOps env w h rgb)
    = (if w <=? 0 then 1 else w) /\
  height (Java_sun_java2d_vulkan_WLVKSurfaceData_initOps env w h rgb)
    = (if h <=? 0 then 1 else h).
Proof.
  unfold reaches_clamp, Java_sun_java2d_vulkan_WLVKSurfaceData_initOps.
  destruct (HEADLESS env); cbn; [ discriminate | ].
  destruct (SurfaceData_InitOps env); cbn; [ intros _ | discriminate ].
  destruct (malloc env); cbn; split; reflexivity.
Qed.

(** C9.  Once [initOps] is past the allocation of the surface data, a
    non-positive width has become 1 and a non-positive height has become
    1, a positive dimension is unchanged, and so both are at least 1 in
    the state the function returns in: no surface is initialised with a
    zero or negative dimension. *)
Theorem initOps_clamps_non_positive_dimensions (env : Env) (w h rgb : Z) :
  reaches_clamp env = true ->
  let out := Java_sun_java2d_vulkan_WLVKSurfaceData_initOps env w h rgb in
  (w <= 0 -> width out = 1) /\ (h <= 0 -> height out = 1) /\
  (0 < w -> width out = w) /\ (0 < h -> height out = h) /\
  1 <= width out /\ 1 <= height out.
Proof.
  intros Hr out. destruct (initOps_clamp env w h rgb Hr) as [Hw Hh].
  fold out in Hw, Hh. rewrite Hw, Hh.
  destruct (Z.leb_spec w 0), (Z.leb_spec h 0); repeat split; lia.
Qed.

(** A surface whose ops were filled in has positive dimensions. *)
Corollary initOps_initialized_surface_has_positive_dimensions env w h rgb :
  let out := Java_sun_java2d_vulkan_WLVKSurfaceData_initOps env w h rgb in
  is_Some (vsdo out) -> 1 <= width out /\ 1 <= height out.
Proof.
  intros out Hs.
  apply initOps_initialized_reaches_clamp in Hs.
  destruct (initOps_clamp env w h rgb Hs) as [Hw Hh].
  fold out in Hw, Hh. rewrite Hw, Hh.
  destruct (Z.leb_spec w 0), (Z.leb_spec h 0); lia.
Qed.

Example initOps_negative_width :
  let out := Java_sun_java2d_vulkan_WLVKSurfaceData_initOps env_ok (-5) 0 0 in
  width out = 1 /\ height out = 1 /\ is_Some (vsdo out).
Proof. cbn. eauto. Qed.

(** Before the clamp nothing is changed: with no surface data the
    function throws and returns at once. *)
Example initOps_no_surface_data :
  let env := {| HEADLESS := false; SurfaceData_InitOps := None;
                malloc := Some 2%positive |} in
  let out := Java_sun_java2d_vulkan_WLVKSurfaceData_initOps env (-5) 0 0 in
  width out = -5 /\ vsdo out = None /\
  exception out = Some "Initialization of SurfaceData failed."%string.
Proof. cbn. auto. Qed.

Lemma initOps_clamps_non_positive_dimensions_witness :
  reaches_clamp env_ok = true /\
  width (Java_sun_java2d_vulkan_WLVKSurfaceData_initOps env_ok (-5) 7 0) = 1.
Proof.
  split; [ reflexivity | ].
  apply (initOps_clamps_non_positive_dimensions env_ok (-5) 7 0 eq_refl).
  lia.
Defined.

End WLVKSurfaceData_theorems.

(** ** [JawsAnnounce] *)

Section JawsAnnouncer_theorems.
Import JawsAnnouncer.
Context `{W : WinApi}.
Local Open Scope Z_scope.

Lemma debug_only_logs text : forallb only_logs (debug text) = true.
Proof. unfold debug. now destruct DEBUG. Qed.

(** The thread id is captured by the first call ... *)
Lemma JawsAnnounce_captures_thread st env prio :
  comInitThreadId st = None ->
  comInitThreadId (JawsAnnounce st env prio).1.2 = Some (GetCurrentThreadId env).
Proof.
  intros H. unfold JawsAnnounce, speak, say, tryInitialize. rewrite H.
  repeat case_match; reflexivity.
Qed.

(** ... and no later call changes it. *)
Lemma JawsAnnounce_keeps_thread st env prio t0 :
  comInitThreadId st = Some t0 ->
  comInitThreadId (JawsAnnounce st env prio).1.2 = Some t0.
Proof.
  intros H. unfold JawsAnnounce, speak, say, tryInitialize. rewrite H.
  repeat case_match; reflexivity.
Qed.

(** One call on another thread than the captured one. *)
Lemma JawsAnnounce_other_thread st env prio t0 :
  comInitThreadId st = Some t0 ->
  GetCurrentThreadId env <> t0 ->
  exists tr, JawsAnnounce st env prio = (Returns false, st, tr) /\
             forallb only_logs tr = true.
Proof.
  intros H Hne. unfold JawsAnnounce. rewrite H.
  apply Z.eqb_neq in Hne. rewrite Hne. cbn [negb].
  eexists. split.
  - destruct st; cbn in *; subst; reflexivity.
  - cbn. rewrite forallb_app, debug_only_logs. reflexivity.
Qed.

Lemma run_other_thread st calls t0 i c :
  comInitThreadId st = Some t0 ->
  calls !! i = Some c ->
  GetCurrentThreadId (answers c) <> t0 ->
  exists tr, run st calls !! i = Some (Returns false, tr) /\
             forallb only_logs tr = true.
Proof.
  revert st i. induction calls as [|c' rest IH]; intros st i Hst Hi Hne.
  - discriminate.
  - cbn [run].
    pose proof (JawsAnnounce_keeps_thread st (answers c') (priority c') t0 Hst) as Hk.
    destruct i as [|i]; cbn in Hi.
    + injection Hi as ->.
      destruct (JawsAnnounce_other_thread st (answers c) (priority c) t0 Hst Hne)
        as (tr & -> & Htr).
      exists tr. split; [ reflexivity | exact Htr ].
    + destruct (JawsAnnounce st (answers c') (priority c')) as [[b st'] tr'].
      cbn in Hk. cbn. eapply IH; eauto.
Qed.

(** C10.  [JawsAnnounce] is bound to the thread of its first call: in any
    sequence of calls starting from the initial statics, every later call
    made on a thread whose id differs from the first call's returns
    false, and all it does is logging: no [CoInitialize], no
    [CoCreateInstance], no [SayString]. *)
Theorem JawsAnnounce_is_thread_affine (first : Call) (later : list Call)
    (i : nat) (c : Call) :
  later !! i = Some c ->
  GetCurrentThreadId (answers c) <> GetCurrentThreadId (answers first) ->
  exists tr,
    run statics0 (first :: later) !! S i = Some (Returns false, tr) /\
    forallb only_logs tr = true /\
    ~ In CoInitialize_call tr /\ ~ In CoCreateInstance_call tr /\
    (forall v, ~ In (SayString_call v) tr).
Proof.
  intros Hi Hne. cbn [run].
  pose proof (JawsAnnounce_captures_thread statics0 (answers first)
                (priority first) eq_refl) as Hc.
  destruct (JawsAnnounce statics0 (answers first) (priority first))
    as [[b st'] tr'].
  cbn in Hc.
  destruct (run_other_thread st' later _ i c Hc Hi Hne) as (tr & Hrun & Htr).
  exists tr. split; [ exact Hrun | ]. split; [ exact Htr | ].
  rewrite forallb_forall in Htr.
  repeat split; intros; intros Hin; apply Htr in Hin; discriminate.
Qed.

End JawsAnnouncer_theorems.

Section JawsAnnouncer_examples.
Import JawsAnnouncer.
Local Open Scope Z_scope.

(** The first call, on thread 7, and a call on the same thread speak;
    a call on thread 8 does not. *)
Example run_three_calls :
  map fst (run statics0 [ {| answers := all_fine 7; priority := 0 |};
                          {| answers := all_fine 8; priority := 0 |};
                          {| answers := all_fine 7; priority := 1 |} ])
  = [Returns true; Returns false; Returns true].
Proof. reflexivity. Qed.

Lemma JawsAnnounce_is_thread_affine_witness :
  exists tr,
    run statics0 [ {| answers := all_fine 7; priority := 0 |};
                   {| answers := all_fine 8; priority := 0 |} ] !! 1%nat
    = Some (Returns false, tr) /\
    forallb only_logs tr = true.
Proof.
  destruct (JawsAnnounce_is_thread_affine
              {| answers := all_fine 7; priority := 0 |}
              [ {| answers := all_fine 8; priority := 0 |} ] 0
              {| answers := all_fine 8; priority := 0 |} eq_refl)
    as (tr & H1 & H2 & _).
  - cbn. lia.
  - exists tr. split; assumption.
Defined.

End JawsAnnouncer_examples.

(** ** The dasher *)

Section Dasher_theorems.
Import Dasher.
Local Open Scope Z_scope.

(** Every span the walk emits lies on the part of the segment that was
    walked and is not empty. *)
Lemma walk_spans_inside dash c pos len :
  Forall (fun s => pos <= s.1 /\ s.1 < s.2 /\ s.2 <= len) (walk dash c pos len).1.
Proof.
  funelim (walk dash c pos len); try apply Forall_nil_2.
  match goal with
  | IH : Forall _ (walk _ _ _ _).1 |- _ => rename IH into IHw
  end.
  assert (Hrest : Forall (fun s : Z * Z => pos <= s.1 /\ s.1 < s.2 /\ s.2 <= len)
                    (walk dash (advance dash c (Z.min (remaining c) (len - pos)))
                          (pos + Z.min (remaining c) (len - pos)) len).1).
  { eapply Forall_impl; [ exact IHw | ]. cbn. intros [a b]; cbn. lia. }
  unfold emit. destruct (dashOn c); cbn; [ | exact Hrest ].
  apply Forall_cons; split; [ cbn; lia | exact Hrest ].
Qed.

Lemma valid_pattern_spec dash :
  valid_pattern dash = true ->
  (0 < length dash)%nat /\ forall i, (i < length dash)%nat -> 0 < nth i dash 0.
Proof.
  unfold valid_pattern. intros [H1 H2]%andb_prop.
  apply negb_true_iff, Nat.eqb_neq in H1. split; [ lia | ].
  rewrite forallb_forall in H2. intros i Hi.
  apply Z.ltb_lt, H2, nth_In, Hi.
Qed.

(** On a valid pattern the cursor always has some of a dash left: the
    walk never stops short of the end of the segment. *)
Lemma start_cursor_ok dash : valid_pattern dash = true -> cursor_ok dash (start dash).
Proof.
  intros [Hl Hp]%valid_pattern_spec. split; cbn; [ exact Hl | ].
  specialize (Hp 0%nat Hl). lia.
Qed.

Lemma advance_cursor_ok dash c step :
  valid_pattern dash = true -> cursor_ok dash c -> 0 < step ->
  cursor_ok dash (advance dash c step).
Proof.
  intros [Hl Hp]%valid_pattern_spec [Hi Hr] Hs. unfold advance.
  destruct (Z.leb_spec (remaining c) step).
  - assert (Hm : (S (idx c) mod length dash < length dash)%nat)
      by (apply Nat.mod_upper_bound; lia).
    split; cbn; [ exact Hm | ]. specialize (Hp _ Hm). lia.
  - split; cbn; [ exact Hi | lia ].
Qed.

Lemma walk_cursor_ok dash c pos len :
  valid_pattern dash = true -> cursor_ok dash c ->
  cursor_ok dash (walk dash c pos len).2.
Proof.
  funelim (walk dash c pos len); intros Hv Hc; try exact Hc.
  unfold emit; cbn [snd].
  match goal with IH : _ -> _ -> cursor_ok _ _ |- _ => apply IH end;
    [ exact Hv | ].
  apply advance_cursor_ok; [ exact Hv | exact Hc | lia ].
Qed.

(** C5.  On a straight segment of length 16, the pattern [4,4] with phase
    0 yields exactly two "on" sub-segments, each of length 4, at arc-length
    offsets [0,4] and [8,12]. *)
Theorem dash_4_4_phase_0_on_length_16 :
  exists spans,
    dash_segment [4; 4] 0 16 = Some spans /\
    spans = [(0, 4); (8, 12)] /\
    length spans = 2%nat /\
    Forall (fun s => span_length s = 4) spans.
Proof.
  exists [(0, 4); (8, 12)].
  split; [ vm_compute; reflexivity | ].
  split; [ reflexivity | ].
  split; [ reflexivity | ].
  repeat constructor.
Qed.

(** The phase shifts the pattern: two units in, the first "on" piece is
    the rest of the first dash. *)
Example dash_4_4_phase_2_on_length_16 :
  dash_segment [4; 4] 2 16 = Some [(0, 2); (6, 10); (14, 16)].
Proof. vm_compute. reflexivity. Qed.

Example dash_rejects_empty_pattern : dash_segment [] 0 16 = None.
Proof. reflexivity. Qed.

End Dasher_theorems.

(** ** The array cache *)

Section ArrayCache_theorems.
Import ArrayCache.
Local Open Scope Z_scope.

Lemma zeros_all_zero n : Forall (eq 0) (zeros n).
Proof. unfold zeros. induction n; cbn; constructor; auto. Qed.

Lemma first_idle_spec l i :
  first_idle l = Some i -> exists a, l !! i = Some a /\ taken a = false.
Proof.
  revert i. induction l as [|a l IH]; intros i; cbn; [ discriminate | ].
  destruct (taken a) eqn:E.
  - destruct (first_idle l) as [j|]; cbn; [ | discriminate ].
    intros [= <-]. cbn. now apply IH.
  - intros [= <-]. exists a. now split.
Qed.

Lemma take_all_zero c a :
  Forall (eq 0) (contents a) -> Forall (eq 0) (contents (take c a)).
Proof.
  intros H. unfold take; cbn. destruct (capacity a <? c); [ | exact H ].
  apply Forall_app. split; [ exact H | apply zeros_all_zero ].
Qed.

(** [checkout], [write] and [release] keep the idle arrays of a clean
    pool zeroed. *)
Lemma checkout_idle_zero c p :
  idle_arrays_zero p -> idle_arrays_zero (checkout c p).2.
Proof.
  unfold idle_arrays_zero, checkout. intros H.
  destruct (first_idle (arrays p)) as [i|] eqn:E.
  - destruct (first_idle_spec _ _ E) as (a & Ha & _). rewrite Ha. cbn.
    apply Forall_insert; [ exact H | ]. cbn. discriminate.
  - cbn. apply Forall_app. split; [ exact H | ].
    apply Forall_cons; split; [ cbn; discriminate | apply Forall_nil_2 ].
Qed.

Lemma write_idle_zero h i v p p' :
  idle_arrays_zero p -> write h i v p = Some p' -> idle_arrays_zero p'.
Proof.
  unfold idle_arrays_zero, write. intros H.
  destruct (arrays p !! h) as [a|]; [ | discriminate ].
  destruct (taken a && (i <? length (contents a))%nat); [ | discriminate ].
  intros [= <-]. cbn. apply Forall_insert; [ exact H | ]. cbn. discriminate.
Qed.

Lemma release_idle_zero h n p :
  kind p = CleanPool -> idle_arrays_zero p -> idle_arrays_zero (release h n p).
Proof.
  unfold idle_arrays_zero, release. intros Hk H.
  destruct (arrays p !! h) as [a|]; [ | exact H ].
  cbn. apply Forall_insert; [ exact H | ]. cbn. intros _.
  rewrite Hk. apply zeros_all_zero.
Qed.

Lemma zeros_lookup n i : (i < n)%nat -> zeros n !! i = Some 0.
Proof.
  revert i. induction n as [|n IH]; intros i Hi; [ lia | ].
  destruct i as [|i]; [ reflexivity | ]. cbn. apply IH. lia.
Qed.

(** On a clean pool the released array holds zeros from [newLength] on
    (and before it). *)
Lemma release_zero_beyond_newLength h n p a i :
  kind p = CleanPool ->
  arrays (release h n p) !! h = Some a ->
  (Z.to_nat n <= i < length (contents a))%nat ->
  contents a !! i = Some 0.
Proof.
  unfold release. intros Hk Ha Hi.
  destruct (arrays p !! h) as [a0|] eqn:E.
  - cbn in Ha. rewrite list_lookup_insert_eq in Ha
      by (eapply lookup_lt_Some; eauto).
    injection Ha as <-. cbn in *. rewrite Hk in *.
    unfold zeros in Hi. rewrite repeat_length in Hi.
    apply zeros_lookup. lia.
  - rewrite E in Ha. discriminate.
Qed.

Lemma reachable_kind k p : reachable k p -> kind p = k.
Proof.
  induction 1 as [ | p c _ IH | p h i v p' _ IH Hw | p h n _ IH ].
  - reflexivity.
  - unfold checkout. destruct (first_idle (arrays p)); [ | exact IH ].
    destruct (arrays p !! n); exact IH.
  - unfold write in Hw. destruct (arrays p !! h) as [a|]; [ | discriminate ].
    destruct (taken a && (i <? length (contents a))%nat); [ | discriminate ].
    injection Hw as <-. exact IH.
  - unfold release. destruct (arrays p !! h); exact IH.
Qed.

(** The invariant of a clean pool. *)
Lemma reachable_clean_idle_zero p :
  reachable CleanPool p -> idle_arrays_zero p.
Proof.
  induction 1 as [ | p c _ IH | p h i v p' _ IH Hw | p h n Hr IH ].
  - apply Forall_nil_2.
  - now apply checkout_idle_zero.
  - eapply write_idle_zero; eauto.
  - apply release_idle_zero; [ now apply reachable_kind | exact IH ].
Qed.

Lemma write_from_reachable k h vs : forall i p p',
  reachable k p -> write_from h i vs p = Some p' -> reachable k p'.
Proof.
  induction vs as [|v vs IH]; intros i p p' Hr; cbn.
  - now intros [= <-].
  - destruct (write h i v p) as [p1|] eqn:E; [ | discriminate ].
    apply IH. eapply reach_write; eauto.
Qed.

(** What [checkout] hands out of a pool whose idle arrays are zeroed. *)
Lemma checkout_buffer_zero c p h prev p' :
  idle_arrays_zero p ->
  checkout c p = (h, prev, p') ->
  exists buf, buffer h p' = Some buf /\ Forall (eq 0) buf /\
              (c <= Z.of_nat (length buf)).
Proof.
  unfold idle_arrays_zero, checkout, buffer. intros H.
  destruct (first_idle (arrays p)) as [i|] eqn:E.
  - destruct (first_idle_spec _ _ E) as (a & Ha & Hidle). rewrite Ha.
    intros [= <- <- <-]. cbn [arrays].
    rewrite list_lookup_insert_eq by (eapply lookup_lt_Some; eauto).
    cbn [taken]. eexists. split; [ reflexivity | ].
    split.
    + apply take_all_zero. rewrite Forall_lookup in H. now apply (H i a).
    + unfold take, capacity; cbn.
      destruct (Z.ltb_spec (Z.of_nat (length (contents a))) c); [ | lia ].
      rewrite length_app. unfold zeros, grown_capacity, capacity.
      rewrite repeat_length. lia.
  - intros [= <- <- <-]. cbn [arrays].
    rewrite lookup_app_r by lia. rewrite Nat.sub_diag. cbn.
    eexists. split; [ reflexivity | ].
    split; [ apply zeros_all_zero | ].
    unfold zeros. rewrite repeat_length. lia.
Qed.

(** All arrays before the first idle one are taken. *)
Lemma first_idle_taken_before l : forall i j a,
  first_idle l = Some i -> (j < i)%nat -> l !! j = Some a -> taken a = true.
Proof.
  induction l as [|b l IH]; intros i j a; cbn; [ discriminate | ].
  destruct (taken b) eqn:E.
  - destruct (first_idle l) as [k|] eqn:Ek; cbn; [ | discriminate ].
    intros [= <-] Hj. destruct j as [|j]; cbn.
    + now intros [= <-].
    + apply (IH k j a eq_refl). lia.
  - intros [= <-] Hj. lia.
Qed.

Lemma first_idle_None l :
  first_idle l = None -> Forall (fun a => taken a = true) l.
Proof.
  induction l as [|b l IH]; cbn; [ constructor | ].
  destruct (taken b) eqn:E; [ | discriminate ].
  destruct (first_idle l); cbn; [ discriminate | ].
  intros _. constructor; auto.
Qed.

(** An idle array behind taken ones is the first idle one. *)
Lemma first_idle_at l : forall i a,
  (forall j b, (j < i)%nat -> l !! j = Some b -> taken b = true) ->
  l !! i = Some a -> taken a = false -> first_idle l = Some i.
Proof.
  induction l as [|b l IH]; intros i a Hbefore Hi Ha; [ discriminate | ].
  cbn. destruct i as [|i]; cbn in Hi.
  - injection Hi as ->. now rewrite Ha.
  - rewrite (Hbefore 0%nat b) by (cbn; auto; lia).
    rewrite (IH i a); [ reflexivity | | exact Hi | exact Ha ].
    intros j c Hj Hc. apply (Hbefore (S j) c); [ lia | exact Hc ].
Qed.

(** What [checkout] hands out: a taken array of the capacity asked for,
    behind taken arrays only. *)
Lemma checkout_owns c p h prev p' :
  checkout c p = (h, prev, p') ->
  kind p' = kind p /\
  (forall j b, (j < h)%nat -> arrays p' !! j = Some b -> taken b = true) /\
  exists a, arrays p' !! h = Some a /\ taken a = true /\ c <= capacity a.
Proof.
  unfold checkout.
  destruct (first_idle (arrays p)) as [i|] eqn:E.
  - destruct (first_idle_spec _ _ E) as (a & Ha & Hidle). rewrite Ha.
    intros [= <- <- <-]. cbn [arrays kind].
    split; [ reflexivity | ]. split.
    + intros j b Hj. rewrite list_lookup_insert_ne by lia.
      now apply (first_idle_taken_before _ i j b E).
    + exists (take c a).
      rewrite list_lookup_insert_eq by (eapply lookup_lt_Some; eauto).
      repeat split. unfold take, capacity; cbn.
      destruct (Z.ltb_spec (Z.of_nat (length (contents a))) c); [ | lia ].
      rewrite length_app. unfold zeros, grown_capacity, capacity.
      rewrite repeat_length. lia.
  - intros [= <- <- <-]. cbn [arrays kind].
    split; [ reflexivity | ]. split.
    + intros j b Hj. rewrite lookup_app_l by exact Hj.
      pose proof (first_idle_None _ E) as Hall.
      rewrite Forall_lookup in Hall. apply Hall.
    + eexists. rewrite lookup_app_r by lia. rewrite Nat.sub_diag. cbn.
      repeat split. unfold capacity, zeros; cbn. rewrite repeat_length. lia.
Qed.

(** What a run of writes leaves: the values, in place, in the array of
    the handle; every other array, and every flag, as before. *)
Lemma write_from_spec h vs : forall i p p' a,
  write_from h i vs p = Some p' ->
  arrays p !! h = Some a ->
  kind p' = kind p /\
  (forall j, j <> h -> arrays p' !! j = arrays p !! j) /\
  (vs <> [] -> (i + length vs <= length (contents a))%nat) /\
  arrays p' !! h =
    Some {| contents := firstn i (contents a) ++ vs
                        ++ skipn (i + length vs) (contents a);
            taken := taken a; lastLength := lastLength a |}.
Proof.
  induction vs as [|v vs IH]; intros i p p' a; cbn [write_from].
  - intros [= <-] Ha. repeat split; try tauto.
    rewrite Ha. cbn. rewrite Nat.add_0_r, firstn_skipn. now destruct a.
  - unfold write at 1. intros Hw Ha. rewrite Ha in Hw.
    destruct (taken a) eqn:Et; [ | discriminate ].
    destruct (Nat.ltb_spec i (length (contents a))) as [Hi|]; [ | discriminate ].
    cbn [andb] in Hw.
    match type of Hw with
    | write_from _ _ _ ?q = _ =>
        destruct (IH (S i) q p' {| contents := <[i := v]> (contents a);
                                   taken := true;
                                   lastLength := lastLength a |} Hw)
          as (Hk & Hother & Hlen & Hh)
    end.
    { cbn [arrays]. apply list_lookup_insert_eq. eapply lookup_lt_Some; eauto. }
    cbn [kind arrays contents taken lastLength] in *.
    rewrite length_insert in Hlen.
    split; [ exact Hk | ]. split.
    { intros j Hj. rewrite (Hother j Hj). now apply list_lookup_insert_ne. }
    split.
    { intros _. cbn [length]. destruct vs as [|w vs']; [ cbn; lia | ].
      specialize (Hlen ltac:(discriminate)). cbn [length] in *. lia. }
    rewrite Hh. do 2 f_equal.
    rewrite (take_S_r _ i v) by (apply list_lookup_insert_eq; exact Hi).
    rewrite take_insert_ge by lia.
    rewrite drop_insert_lt by lia.
    cbn [length].
    replace (i + S (length vs))%nat with (S i + length vs)%nat by lia.
    rewrite <- app_assoc. reflexivity.
Qed.

(** C4.  Round trip on a clean pool: a buffer is checked out, [N]
    elements are written into it, it is released, and a buffer is checked
    out again with a capacity of at most [N].  The elements written were
    in the buffer; the second checkout hands back that very buffer, with
    the length given at the release and without resizing it; and its
    first [N] elements are zero. *)
Theorem clean_pool_round_trip_reads_zero
    (p : Pool) (c1 : Z) (vs : list Z) (newLength c2 : Z)
    (h1 : nat) (prev1 : Z) (p1 p2 : Pool)
    (h2 : nat) (prev2 : Z) (p4 : Pool) :
  kind p = CleanPool ->
  checkout c1 p = (h1, prev1, p1) ->
  write_from h1 0 vs p1 = Some p2 ->
  c2 <= Z.of_nat (length vs) ->
  checkout c2 (release h1 newLength p2) = (h2, prev2, p4) ->
  exists written buf,
    buffer h1 p2 = Some written /\ firstn (length vs) written = vs /\
    h2 = h1 /\ prev2 = newLength /\
    buffer h2 p4 = Some buf /\ length buf = length written /\
    (length vs <= length buf)%nat /\
    Forall (eq 0) (firstn (length vs) buf).
Proof.
  intros Hk Hc1 Hw Hc2le Hc2.
  destruct (checkout_owns _ _ _ _ _ Hc1) as (Hk1 & Hbefore1 & a1 & Ha1 & Ht1 & _).
  destruct (write_from_spec _ _ _ _ _ _ Hw Ha1) as (Hk2 & Hother & Hfit & Ha2).
  cbn [Nat.add] in Ha2, Hfit. rewrite Ht1 in Ha2.
  set (written := vs ++ skipn (length vs) (contents a1)) in *.
  assert (Hlen : (length vs <= length (contents a1))%nat).
  { destruct vs as [|v vs']; [ cbn; lia | apply Hfit; discriminate ]. }
  assert (Hwlen : length written = length (contents a1)).
  { unfold written. rewrite length_app, length_skipn. lia. }
  (* after the release the array of [h1] is the first idle one *)
  assert (Hrel : arrays (release h1 newLength p2) =
                 <[h1 := {| contents := zeros (length written);
                            taken := false; lastLength := newLength |}]> (arrays p2)).
  { unfold release. rewrite Ha2. cbn [contents kind].
    now rewrite Hk2, Hk1, Hk. }
  assert (Hidle : first_idle (arrays (release h1 newLength p2)) = Some h1).
  { rewrite Hrel. eapply first_idle_at.
    - intros j b Hj. rewrite list_lookup_insert_ne by lia.
      rewrite (Hother j) by lia. now apply Hbefore1.
    - apply list_lookup_insert_eq. eapply lookup_lt_Some; eauto.
    - reflexivity. }
  unfold checkout in Hc2. rewrite Hidle in Hc2. rewrite Hrel in Hc2.
  rewrite list_lookup_insert_eq in Hc2 by (eapply lookup_lt_Some; eauto).
  cbn [lastLength] in Hc2. injection Hc2 as <- <- <-.
  exists written, (zeros (length written)).
  unfold buffer. rewrite Ha2. cbn [taken contents arrays].
  rewrite list_insert_insert_eq.
  rewrite list_lookup_insert_eq by (eapply lookup_lt_Some; eauto).
  unfold take, capacity, zeros. cbn [taken contents].
  rewrite repeat_length.
  destruct (Z.ltb_spec (Z.of_nat (length written)) c2) as [Hgrow|_]; [ lia | ].
  repeat split; try lia.
  - unfold written. rewrite firstn_app, firstn_all, Nat.sub_diag. cbn.
    apply app_nil_r.
  - apply Forall_take. apply (zeros_all_zero (length written)).
Qed.

(** The buffer the writer used comes back, and the values are gone. *)
Example clean_pool_reuses_the_buffer :
  let '(h1, _, p1) := checkout 4 (new_pool CleanPool) in
  let p2 := write_from h1 0 [7; 8; 9] p1 in
  let '(h2, prev, p4) := checkout 3 (release h1 3 (default p1 p2)) in
  p2 <> None /\ h2 = h1 /\ prev = 3 /\ buffer h2 p4 = Some [0; 0; 0; 0].
Proof. vm_compute. repeat split; discriminate. Qed.

(** A dirty pool leaves the values in place. *)
Example dirty_pool_keeps_the_values :
  let '(h1, _, p1) := checkout 4 (new_pool DirtyPool) in
  let p2 := write_from h1 0 [7; 8; 9] p1 in
  let '(h2, _, p4) := checkout 3 (release h1 3 (default p1 p2)) in
  buffer h2 p4 = Some [7; 8; 9; 0].
Proof. vm_compute. reflexivity. Qed.

Lemma clean_pool_round_trip_reads_zero_witness :
  exists written buf,
    buffer 0 (default (new_pool CleanPool)
                (write_from 0 0 [7; 8; 9] (checkout 4 (new_pool CleanPool)).2))
      = Some written /\
    firstn 3 written = [7; 8; 9] /\
    buffer 0 (checkout 3 (release 0 3
                (default (new_pool CleanPool)
                   (write_from 0 0 [7; 8; 9]
                      (checkout 4 (new_pool CleanPool)).2)))).2 = Some buf /\
    Forall (eq 0) (firstn 3 buf).
Proof.
  destruct (clean_pool_round_trip_reads_zero (new_pool CleanPool) 4 [7; 8; 9] 3 3
              0 0 _ _ 0 3 _ eq_refl eq_refl eq_refl ltac:(cbn; lia) eq_refl)
    as (written & buf & H1 & H2 & _ & _ & H3 & _ & _ & H4).
  exists written, buf. repeat split; assumption.
Defined.

End ArrayCache_theorems.

(** ** The curve monotonizer *)

Section Monotonizer_theorems.
Import Monotonizer.
Local Open Scope R_scope.






































End Monotonizer_theorems.

(** ** [RendererContext]: calls in a row *)

Section RendererContext_more.
Import RendererContext RendererContext_sequences.
Context `{MC : MarlinConst} `{ST : Stages}.

(** A second [dispose()] right after a first finds nothing to do: it
    returns the same context and heap and resets no stage. *)
Theorem dispose_twice_is_dispose_once ctx h ctx' h' tr :
  stats_nonneg ctx ->
  dispose ctx h = Returned (ctx', h', tr) ->
  dispose ctx' h' = Returned (ctx', h', []).
Proof.
  intros Hnn. unfold dispose, dispose_stats.
  destruct ctx as [c0 d c1 c2 c3 c4 c5 rp c6 c7 c8 c9 c10 c11 c12 c13
                   sk dc cp c14 ci c15 ff c16 c17 c18 c19 c20 c21 st c22].
  unfold stats_nonneg in Hnn. cbn in Hnn.
  destruct DO_STATS eqn:EDS.
  - destruct st as [s|]; [ | discriminate ].
    destruct (Hnn s eq_refl) as [H1 H2].
    unfold dispose_dirty; cbn.
    destruct d; intros [= <- <- <-]; cbn; rewrite ?EDS; cbn;
      destruct (Z.ltb_spec (totalOffHeapMax s) (totalOffHeap s)); cbn;
      match goal with
      | |- context [(?a <? 0)%Z] => destruct (Z.ltb_spec a 0); [ lia | ]
      end; reflexivity.
  - unfold dispose_dirty; cbn.
    destruct d; intros [= <- <- <-]; cbn; rewrite ?EDS; reflexivity.
Qed.

(** [dispose()] and [getPath2D()] do not interfere: in either order
    they leave the same context and the same heap, [getPath2D()] returns
    the same path and [dispose()] resets the same stages. *)
Theorem dispose_and_getPath2D_commute ctx h c1 h1 t1 :
  dispose ctx h = Returned (c1, h1, t1) ->
  let '(p, c2, h2, t2) := getPath2D c1 h1 in
  let '(p', c1', h1', t2') := getPath2D ctx h in
  p' = p /\ t2' = t2 /\ dispose c1' h1' = Returned (c2, h2, t1).
Proof.
  unfold dispose, dispose_stats.
  destruct ctx as [c0 d c01 c02 c3 c4 c5 rp c6 c7 c8 c9 c10 c11 c12 c13
                   sk dc cp c14 ci c15 ff c16 c17 c18 c19 c20 c21 st c22].
  destruct h as [hp hw hs hn].
  cbn [stats].
  destruct DO_STATS eqn:EDS; [ destruct st as [s|]; [ | discriminate ] | ];
    unfold dispose_dirty; cbn [reset_per_operation assign dirty];
    destruct d; intros [= <- <- <-];
    unfold getPath2D, WeakReference_get, alloc; cbn;
    (destruct rp as [w|]; [ destruct (hw !! w) as [[q|]|] | ]);
    cbn.
  all: rewrite ?EDS; cbn; repeat split; reflexivity.
Qed.


Lemma resolve_after_reset ctx h p q :
  resolve ctx (heap_reset_path q h) = Some p <-> resolve ctx h = Some p.
Proof. unfold resolve, WeakReference_get. reflexivity. Qed.

(** Once the weak reference resolves, every call of a row returns the
    referent and creates nothing. *)
Lemma getPath2D_times_reuse n : forall ctx h p,
  resolve ctx h = Some p ->
  exists h' tr,
    getPath2D_times n ctx h = (repeat p n, ctx, h', tr) /\
    List.filter is_New_Path2D tr = [] /\
    nextRef h' = nextRef h /\ weakRefs h' = weakRefs h.
Proof.
  induction n as [|n IH]; intros ctx h p Hres; cbn [getPath2D_times].
  - exists h, []. repeat split.
  - destruct (getPath2D_reuse ctx h p Hres) as (tr1 & E1 & Htr1).
    rewrite E1.
    destruct (IH ctx (heap_reset_path p h) p) as (h' & tr2 & E2 & Hf & Hn & Hw).
    { now apply resolve_after_reset. }
    rewrite E2. exists h', (tr1 ++ tr2). repeat split; try assumption.
    rewrite List.filter_app, Hf, app_nil_r.
    clear - Htr1. induction tr1 as [|e tr1 IHt]; [ reflexivity | ].
    cbn. destruct (Htr1 e (or_introl eq_refl)) as [-> | [w ->]]; cbn;
      apply IHt; intros e' He'; apply Htr1; now right.
Qed.

(** Any number of calls of [getPath2D()] in a row, with no collection in
    between, return one and the same path, and among them they create at
    most one: none when the weak reference resolves at the start. *)
Theorem getPath2D_recycles_one_path n ctx h ps ctx' h' tr :
  heap_wf h ->
  getPath2D_times n ctx h = (ps, ctx', h', tr) ->
  length ps = n /\
  (forall p q, In p ps -> In q ps -> p = q) /\
  (length (List.filter is_New_Path2D tr) <= 1)%nat /\
  (resolve ctx h <> None -> List.filter is_New_Path2D tr = [] /\ ctx' = ctx).
Proof.
  intros Hwf Hrun.
  destruct (resolve ctx h) as [p|] eqn:Hres.
  - destruct (getPath2D_times_reuse n ctx h p Hres) as (h2 & tr2 & E & Hf & _).
    rewrite E in Hrun. injection Hrun as <- <- <- <-.
    rewrite repeat_length. repeat split.
    + intros a b Ha Hb. apply repeat_spec in Ha, Hb. congruence.
    + rewrite Hf. cbn. lia.
    + exact Hf.
  - destruct n as [|n]; cbn [getPath2D_times] in Hrun.
    + injection Hrun as <- <- <- <-. repeat split; cbn; try lia; try tauto.
    + destruct (getPath2D_create ctx h Hres) as (tr1 & E1 & Hin).
      rewrite E1 in Hrun.
      match type of Hrun with
      | context [getPath2D_times n ?c ?hh] =>
          destruct (getPath2D_times_reuse n c hh (nextRef h)) as (h2 & tr2 & E & Hf & _)
      end.
      { unfold resolve; cbn. apply WeakReference_get_Some. cbn.
        apply lookup_insert_eq. }
      rewrite E in Hrun. injection Hrun as <- <- <- <-.
      cbn [length]. rewrite repeat_length. repeat split.
      * intros a b [<- | Ha] [<- | Hb]; try reflexivity;
          try (apply repeat_spec in Ha); try (apply repeat_spec in Hb); congruence.
      * rewrite List.filter_app, Hf, app_nil_r.
        unfold getPath2D in E1. 
        assert (Hev : (match refPath2D ctx with
                       | Some w => (WeakReference_get w h, [Call_WeakReference_get w])
                       | None => (None, [])
                       end).1 = None).
        { unfold resolve in Hres. destruct (refPath2D ctx); [ exact Hres | reflexivity ]. }
        destruct (match refPath2D ctx with
                  | Some w => (WeakReference_get w h, [Call_WeakReference_get w])
                  | None => (None, [])
                  end) as [o ev0] eqn:Eev. cbn in Hev. subst o.
        apply (f_equal snd) in E1. cbn in E1. subst tr1.
        rewrite List.filter_app.
        assert (List.filter is_New_Path2D ev0 = []) as ->.
        { apply (f_equal snd) in Eev. cbn in Eev. subst ev0.
          now destruct (refPath2D ctx). }
        cbn. lia.
      * congruence.
      * congruence.
Qed.

End RendererContext_more.

Section RendererContext_more_examples.
Import RendererContext RendererContext_sequences Example_config.

Lemma dispose_twice_is_dispose_once_witness :
  exists ctx' h' tr,
    dispose (set_dirty true ctx0) heap0 = Returned (ctx', h', tr) /\
    length tr = 4%nat /\
    dispose ctx' h' = Returned (ctx', h', []).
Proof.
  eexists _, _, _. split; [ reflexivity | ]. split; [ reflexivity | ].
  eapply (dispose_twice_is_dispose_once (set_dirty true ctx0) heap0).
  - intros s Hs. discriminate Hs.
  - reflexivity.
Defined.

Lemma dispose_and_getPath2D_commute_witness :
  exists c1 h1 t1,
    dispose (set_dirty true ctx0) heap0 = Returned (c1, h1, t1) /\
    (getPath2D (set_dirty true ctx0) heap0).1.1.1 = (getPath2D c1 h1).1.1.1.
Proof.
  destruct (dispose (set_dirty true ctx0) heap0) as [[[c1 h1] t1]|e] eqn:E.
  - exists c1, h1, t1. split; [ reflexivity | ].
    pose proof (dispose_and_getPath2D_commute _ _ _ _ _ E) as H.
    destruct (getPath2D c1 h1) as [[[p c2] h2] t2].
    destruct (getPath2D (set_dirty true ctx0) heap0) as [[[p' c1'] h1'] t2'].
    exact (proj1 H).
  - vm_compute in E. discriminate E.
Defined.

Lemma getPath2D_recycles_one_path_witness :
  heap_wf heap0 /\
  length (getPath2D_times 3 ctx0 heap0).1.1.1 = 3%nat /\
  (length (List.filter is_New_Path2D (getPath2D_times 3 ctx0 heap0).2) <= 1)%nat.
Proof.
  split; [ exact heap0_wf | ].
  destruct (getPath2D_times 3 ctx0 heap0) as [[[ps c] h] t] eqn:E.
  destruct (getPath2D_recycles_one_path 3 ctx0 heap0 ps c h t heap0_wf E)
    as (H1 & _ & H2 & _).
  split; [ exact H1 | exact H2 ].
Defined.

End RendererContext_more_examples.

(** ** [WLVKSurfaceData]: the surface lock *)

Section WLVKSurfaceData_more.
Import WLVKSurfaceData WLVKSurfaceData_lock.
Local Open Scope Z_scope.

(** [initOps] throws [OutOfMemoryError] exactly when one of its two
    allocations fails, and fills in the ops exactly when it throws
    nothing (in a build with a display); the ops it fills in are
    complete: the block from [malloc], the four WLVKSD functions and a
    recursive mutex. *)
Theorem initOps_fills_in_everything_or_throws (env : Env) (w h rgb : Z) :
  let out := Java_sun_java2d_vulkan_WLVKSurfaceData_initOps env w h rgb in
  (exception out <> None <->
     HEADLESS env = false /\
     (SurfaceData_InitOps env = None \/ malloc env = None)) /\
  (vsdo out <> None <-> HEADLESS env = false /\ exception out = None) /\
  (forall ops, vsdo out = Some ops ->
     malloc env = Some (privOps ops) /\
     sdOps_Lock ops = WLVKSD_Lock /\ sdOps_Unlock ops = WLVKSD_Unlock /\
     sdOps_GetRasInfo ops = WLVKSD_GetRasInfo /\
     sdOps_Dispose ops = WLVKSD_Dispose /\
     lock ops = PTHREAD_MUTEX_RECURSIVE_NP).
Proof.
  unfold Java_sun_java2d_vulkan_WLVKSurfaceData_initOps.
  destruct (HEADLESS env), (SurfaceData_InitOps env), (malloc env); cbn;
    repeat split; try congruence; try tauto;
    try (intros [? ?]; congruence); try (intros [? [?|?]]; congruence);
    try (intros ops [= <-]; repeat split; reflexivity);
    intros; try discriminate; auto;
    match goal with H : Some _ = Some ?ops |- _ => injection H as <-; reflexivity end.
Qed.

(** [initOps] stores neither the dimensions nor the background colour:
    the exception it throws and the ops it fills in are the same for any
    two sets of arguments. *)
Theorem initOps_outcome_ignores_its_arguments (env : Env) (w h rgb w' h' rgb' : Z) :
  exception (Java_sun_java2d_vulkan_WLVKSurfaceData_initOps env w h rgb)
    = exception (Java_sun_java2d_vulkan_WLVKSurfaceData_initOps env w' h' rgb') /\
  vsdo (Java_sun_java2d_vulkan_WLVKSurfaceData_initOps env w h rgb)
    = vsdo (Java_sun_java2d_vulkan_WLVKSurfaceData_initOps env w' h' rgb').
Proof.
  unfold Java_sun_java2d_vulkan_WLVKSurfaceData_initOps.
  destruct (HEADLESS env), (SurfaceData_InitOps env), (malloc env); split; reflexivity.
Qed.

Lemma lock_times_recursive n t m :
  mtype m = PTHREAD_MUTEX_RECURSIVE_NP ->
  owner m = None \/ owner m = Some t ->
  (owner m = None -> depth m = 0%nat) ->
  lock_times n t m =
    Holds (if Nat.eqb n 0 then m
           else {| mtype := mtype m; owner := Some t; depth := (depth m + n)%nat |}).
Proof.
  revert m. induction n as [|n IH]; intros m Hk Ho Hd; [ reflexivity | ].
  cbn [lock_times WLVKSD_Lock_call]. unfold pthread_mutex_lock.
  destruct Ho as [Ho | Ho]; rewrite Ho.
  - rewrite IH; cbn; auto; try discriminate.
    rewrite (Hd Ho). destruct n; cbn; repeat f_equal; lia.
  - rewrite Z.eqb_refl, Hk. rewrite IH; cbn; auto; try discriminate.
    destruct n; cbn; repeat f_equal; lia.
Qed.

Lemma unlock_times_add a b t m :
  unlock_times (a + b) t m = unlock_times b t (unlock_times a t m).
Proof. revert m. induction a as [|a IH]; intros m; cbn; auto. Qed.

Lemma unlock_times_held n t k d :
  unlock_times n t {| mtype := k; owner := Some t; depth := (S d + n)%nat |}
  = {| mtype := k; owner := Some t; depth := S d |}.
Proof.
  induction n as [|n IH]; cbn [unlock_times WLVKSD_Unlock_call].
  - now rewrite Nat.add_0_r.
  - unfold pthread_mutex_unlock. cbn [owner depth mtype]. rewrite Z.eqb_refl.
    replace (S d + S n)%nat with (S (S (d + n))) by lia.
    replace (S (d + n)) with (S d + n)%nat by lia. exact IH.
Qed.

(** The surface lock is re-entrant, as a blit from a surface to itself
    needs: on the mutex [initOps] creates, a thread can call
    [WLVKSD_Lock] any number of times in a row without waiting; while it
    holds the lock, at any depth, another thread waits; and as many
    [WLVKSD_Unlock] calls as there were locks set the surface free. *)
Theorem surface_lock_is_reentrant (env : Env) (w h rgb : Z) (ops : VKSDOps)
    (n k : nat) (t t' : Z) :
  vsdo (Java_sun_java2d_vulkan_WLVKSurfaceData_initOps env w h rgb) = Some ops ->
  t' <> t -> (k < n)%nat ->
  exists held,
    lock_times n t (surface_mutex ops) = Holds held /\
    WLVKSD_Lock_call false t' (unlock_times k t held) = Waits /\
    unlock_times n t held = surface_mutex ops.
Proof.
  intros Hops Hne Hk.
  assert (Hrec : lock ops = PTHREAD_MUTEX_RECURSIVE_NP).
  { unfold Java_sun_java2d_vulkan_WLVKSurfaceData_initOps in Hops.
    destruct (HEADLESS env), (SurfaceData_InitOps env), (malloc env);
      try discriminate. now injection Hops as <-. }
  unfold surface_mutex, pthread_mutex_init. rewrite Hrec.
  eexists. split; [ apply lock_times_recursive; cbn; auto | ].
  cbn [mtype owner depth].
  destruct n as [|n]; [ lia | ]. cbn [Nat.eqb Nat.add].
  split.
  - replace (S n) with (S (n - k) + k)%nat by lia.
    rewrite unlock_times_held.
    cbn. unfold pthread_mutex_lock; cbn.
    apply Z.eqb_neq in Hne. rewrite Z.eqb_sym in Hne. now rewrite Hne.
  - replace (unlock_times (S n) t) with (unlock_times (n + 1) t)
      by (f_equal; lia).
    rewrite unlock_times_add.
    replace (S n) with (1 + n)%nat at 1 by lia.
    rewrite unlock_times_held. cbn.
    unfold pthread_mutex_unlock; cbn. now rewrite Z.eqb_refl.
Qed.
End WLVKSurfaceData_more.

Section WLVKSurfaceData_more_examples.
Import WLVKSurfaceData WLVKSurfaceData_lock.
Local Open Scope Z_scope.

Lemma surface_lock_is_reentrant_witness :
  exists ops held,
    vsdo (Java_sun_java2d_vulkan_WLVKSurfaceData_initOps env_ok 640 480 0)
      = Some ops /\
    lock_times 2 7 (surface_mutex ops) = Holds held /\
    WLVKSD_Lock_call false 8 (unlock_times 1 7 held) = Waits /\
    unlock_times 2 7 held = surface_mutex ops.
Proof.
  destruct (vsdo (Java_sun_java2d_vulkan_WLVKSurfaceData_initOps env_ok 640 480 0))
    as [ops|] eqn:E.
  - destruct (surface_lock_is_reentrant env_ok 640 480 0 ops 2 1 7 8 E)
      as (held & H1 & H2 & H3); [ lia | lia | ].
    exists ops, held. auto.
  - vm_compute in E. discriminate E.
Defined.

End WLVKSurfaceData_more_examples.

(** ** The JAWS announcer: resources and statics *)

Section Jaws_lifetime_theorems.
Import JawsAnnouncer JawsAnnouncer_lifetime.
Context `{W : WinApi}.
Local Open Scope Z_scope.

Lemma essence_app a b : essence (a ++ b) = essence a ++ essence b.
Proof. unfold essence. apply List.filter_app. Qed.

Lemma essence_debug text : essence (debug text) = [].
Proof. unfold debug. now destruct DEBUG. Qed.

Lemma essence_throw env msg :
  essence (throw_unless_pending env msg) = throws env msg.
Proof. unfold throw_unless_pending, throws. now destruct (ExceptionCheck env). Qed.

Ltac essence_simpl :=
  repeat first [ rewrite essence_app | rewrite essence_debug
               | rewrite essence_throw | rewrite app_nil_r ];
  cbn [essence List.filter only_logs negb app].

(** [say]: the COM call and the release of the BSTR, on every exit. *)
Lemma say_essence st env api v tr :
  say st env api v tr =
    (Returns (negb (FAILED (SayString env).1) && ((SayString env).2 =? VARIANT_TRUE)),
     st, (say st env api v tr).2) /\
  essence (say st env api v tr).2 =
    essence tr ++ [SayString_call v; SysFreeString_call].
Proof.
  unfold say. destruct (SayString env) as [r s]. cbn [fst snd].
  destruct (FAILED r); [ | destruct (s =? VARIANT_TRUE) ]; cbn [negb andb fst snd];
    (split; [ reflexivity | ]); essence_simpl; reflexivity.
Qed.

(** [speak]: from the string to the COM call. *)
Lemma speak_essence st env api prio tr :
  (speak st env api prio tr).1.2 = st /\
  (speak st env api prio tr).1.1 = speech_answer env /\
  essence (speak st env api prio tr).2 = essence tr ++ speech_events env prio.
Proof.
  unfold speak, speech_answer, spoken, speech_events. fold (interrupt_flag prio).
  destruct (GetStringChars env) as [chars|].
  - destruct (encodable env); cbn [negb].
    + destruct (SysAllocString env) as [bstr|].
      * match goal with
        | |- context [say ?a ?b ?c ?d ?e] =>
            destruct (say_essence a b c d e) as [E1 E2]
        end.
        rewrite E1 at 1 2. cbn [fst snd]. rewrite E2.
        repeat split. essence_simpl. rewrite <- ?app_assoc; reflexivity.
      * cbn [fst snd]. repeat split. essence_simpl. rewrite <- ?app_assoc; reflexivity.
    + cbn [fst snd]. repeat split. essence_simpl. rewrite <- ?app_assoc; reflexivity.
  - cbn [fst snd]. repeat split. essence_simpl. reflexivity.
Qed.

(** A call, without its logging: the value, the statics and the events
    on each path. *)
Lemma JawsAnnounce_essence st env prio :
  let out := JawsAnnounce st env prio in
  let init := match comInitThreadId st with
              | Some t => t
              | None => GetCurrentThreadId env
              end in
  let ci := (tryInitialize (comInitializer st) (CoInitialize env)).1.1 in
  let evI := if isInitialized (comInitializer st) then [] else [CoInitialize_call] in
  comInitThreadId out.1.2 = Some init /\
  if negb (GetCurrentThreadId env =? init) then
    out.1.1 = Returns false /\ essence out.2 = [] /\
    comInitializer out.1.2 = comInitializer st /\ pJawsApi out.1.2 = pJawsApi st
  else
    comInitializer out.1.2 = ci /\
    if negb (isInitialized ci) then
      out.1.1 = Returns false /\ essence out.2 = evI /\ pJawsApi out.1.2 = pJawsApi st
    else
      match pJawsApi st with
      | Some api =>
          pJawsApi out.1.2 = Some api /\ out.1.1 = speech_answer env /\
          essence out.2 = evI ++ speech_events env prio
      | None =>
          match ((CoCreateInstance env).1 =? S_OK), (CoCreateInstance env).2 with
          | true, Some api =>
              pJawsApi out.1.2 = Some api /\ out.1.1 = speech_answer env /\
              essence out.2 = evI ++ CoCreateInstance_call :: speech_events env prio
          | _, obj =>
              pJawsApi out.1.2 = None /\ out.1.1 = Returns false /\
              essence out.2 =
                evI ++ CoCreateInstance_call ::
                match obj with Some o => [Release_call o] | None => [] end
          end
      end.
Proof.
  cbn zeta. unfold JawsAnnounce.
  set (init := match comInitThreadId st with
               | Some t => t
               | None => GetCurrentThreadId env
               end).
  destruct (negb (GetCurrentThreadId env =? init)) eqn:Ethread.
  { cbn [fst snd comInitThreadId comInitializer pJawsApi].
    repeat split. essence_simpl. reflexivity. }
  cbn [comInitThreadId comInitializer pJawsApi].
  assert (EI : essence (tryInitialize (comInitializer st) (CoInitialize env)).2
               = if isInitialized (comInitializer st) then [] else [CoInitialize_call]).
  { unfold tryInitialize. now destruct (isInitialized (comInitializer st)). }
  destruct (tryInitialize (comInitializer st) (CoInitialize env)) as [[ci hr] ev].
  cbn [fst snd comInitThreadId comInitializer pJawsApi] in *.
  destruct (negb (isInitialized ci)) eqn:Einit.
  { cbn [fst snd comInitThreadId comInitializer pJawsApi].
    repeat split. essence_simpl. now rewrite EI, ?app_nil_r. }
  destruct (pJawsApi st) as [api|] eqn:Eapi.
  - match goal with
    | |- context [speak ?a ?b ?c ?d ?e] =>
        destruct (speak_essence a b c d e) as (E1 & E2 & E3)
    end.
    rewrite E1, E2, E3. cbn [comInitThreadId comInitializer pJawsApi].
    repeat split. essence_simpl. now rewrite EI, ?app_nil_r.
  - destruct (CoCreateInstance env) as [hr' obj]. cbn [fst snd].
    destruct (hr' =? S_OK) eqn:Ehr; [ destruct obj as [api|] | ].
    + match goal with
      | |- context [speak ?a ?b ?c ?d ?e] =>
          destruct (speak_essence a b c d e) as (E1 & E2 & E3)
      end.
      rewrite E1, E2, E3. cbn [comInitThreadId comInitializer pJawsApi].
      repeat split. essence_simpl. rewrite EI, ?app_nil_r.
      rewrite <- ?app_assoc; reflexivity.
    + cbn [fst snd comInitThreadId comInitializer pJawsApi].
      repeat split. essence_simpl. rewrite EI, ?app_nil_r.
      rewrite <- ?app_assoc; reflexivity.
    + cbn [fst snd comInitThreadId comInitializer pJawsApi].
      repeat split. essence_simpl. rewrite EI, ?app_nil_r.
      destruct obj; essence_simpl; rewrite <- ?app_assoc; reflexivity.
Qed.

Lemma filter_essence (f : Event -> bool) tr :
  (forall e, f e = true -> only_logs e = false) ->
  List.filter f tr = List.filter f (essence tr).
Proof.
  intros Hf. unfold essence. induction tr as [|e tr IH]; [ reflexivity | ].
  cbn. destruct (f e) eqn:Ef.
  - rewrite (Hf e Ef). cbn. rewrite Ef. now f_equal.
  - destruct (only_logs e); cbn; rewrite ?Ef; exact IH.
Qed.

Lemma in_essence e tr : only_logs e = false -> In e tr -> In e (essence tr).
Proof. intros He Hin. apply List.filter_In. split; [ exact Hin | now rewrite He ]. Qed.

Lemma existsb_essence (f : Event -> bool) tr :
  (forall e, f e = true -> only_logs e = false) ->
  existsb f tr = existsb f (essence tr).
Proof.
  intros Hf. unfold essence. induction tr as [|e tr IH]; [ reflexivity | ].
  cbn. destruct (f e) eqn:Ef.
  - rewrite (Hf e Ef). cbn. now rewrite Ef.
  - destruct (only_logs e); cbn; rewrite ?Ef; exact IH.
Qed.

(** The paths of a call, one goal each, with the events spelled out. *)
Ltac jaws_paths st env prio :=
  let Hpath := fresh "Hpath" in
  pose proof (JawsAnnounce_essence st env prio) as Hpath; cbn zeta in Hpath;
  destruct (JawsAnnounce st env prio) as [[b st'] tr]; cbn [fst snd] in *;
  destruct Hpath as [Hthread Hpath];
  repeat match type of Hpath with
         | if ?c then _ else _ => destruct c eqn:?
         | match ?x with _ => _ end => destruct x eqn:?
         | _ /\ _ =>
             let H := fresh "Hfact" in destruct Hpath as [H Hpath]
         end;
  unfold speech_answer, speech_events, spoken, throws in *;
  repeat match goal with
         | H : context [match GetStringChars env with _ => _ end] |- _ =>
             destruct (GetStringChars env) eqn:?
         | H : context [if encodable env then _ else _] |- _ =>
             destruct (encodable env) eqn:?
         | H : context [match SysAllocString env with _ => _ end] |- _ =>
             destruct (SysAllocString env) eqn:?
         | H : context [if ExceptionCheck env then _ else _] |- _ =>
             destruct (ExceptionCheck env) eqn:?
         | H : context [if isInitialized (comInitializer st) then _ else _] |- _ =>
             destruct (isInitialized (comInitializer st)) eqn:?
         | H : context [match (CoCreateInstance env).2 with _ => _ end] |- _ =>
             destruct (CoCreateInstance env).2 eqn:?
         end.

Ltac by_essence tr :=
  try rewrite (filter_essence is_ReleaseStringChars tr) by (now intros []);
  try rewrite (filter_essence is_SysFreeString tr) by (now intros []);
  try rewrite (filter_essence is_SayString tr) by (now intros []);
  try rewrite (filter_essence is_SysAllocString tr) by (now intros []);
  try rewrite (filter_essence is_CoInitialize tr) by (now intros []);
  try rewrite (filter_essence is_CoCreateInstance tr) by (now intros []);
  try rewrite (filter_essence is_Release tr) by (now intros []);
  try rewrite (existsb_essence is_GetStringChars tr) by (now intros []);
  try rewrite (existsb_essence is_SysAllocString tr) by (now intros []);
  try rewrite (existsb_essence is_SysFreeString tr) by (now intros []).

Ltac use_essence tr :=
  by_essence tr;
  match goal with H : essence tr = _ |- _ => rewrite H in * end.


(** A call speaks at most once, with the interrupt flag its priority
    asks for; and it returns true only when it has spoken, the COM call
    did not fail and JAWS reported success. *)
Theorem JawsAnnounce_true_only_when_spoken st env prio :
  let b := (JawsAnnounce st env prio).1.1 in
  let tr := (JawsAnnounce st env prio).2 in
  (List.filter is_SayString tr = [] \/
   List.filter is_SayString tr = [SayString_call (interrupt_flag prio)]) /\
  (b = Returns true ->
     List.filter is_SayString tr = [SayString_call (interrupt_flag prio)] /\
     FAILED (SayString env).1 = false /\
     (SayString env).2 = VARIANT_TRUE).
Proof.
  cbn zeta.
  jaws_paths st env prio; use_essence tr; subst; cbn;
    (split; [ auto | ]); try discriminate;
    intros Hb; try (injection Hb as Hb); try discriminate;
    repeat (apply andb_prop in Hb as [Hb ?]);
    repeat split; try reflexivity;
    first [ now apply negb_true_iff | now apply Z.eqb_eq ].
Qed.

(** [OutOfMemoryError] is thrown only when the characters or the BSTR
    could not be obtained and no exception is pending already; the call
    then returns false. *)
Theorem JawsAnnounce_throws_only_without_pending_exception st env prio msg :
  In (ThrowOutOfMemoryError msg) (JawsAnnounce st env prio).2 ->
  ExceptionCheck env = false /\
  (JawsAnnounce st env prio).1.1 = Returns false /\
  (GetStringChars env = None \/ SysAllocString env = None).
Proof.
  intros Hin. apply in_essence in Hin; [ | reflexivity ]. revert Hin.
  jaws_paths st env prio;
    match goal with H : essence _ = _ |- _ => rewrite H end;
    cbn; intros Hin;
    repeat (destruct Hin as [Hin | Hin]; try discriminate Hin);
    try contradiction; subst; cbn; auto.
Qed.

(** What one call does to the statics. *)
Lemma JawsAnnounce_statics st env prio :
  let st' := (JawsAnnounce st env prio).1.2 in
  let tr := (JawsAnnounce st env prio).2 in
  (forall api, pJawsApi st = Some api ->
     pJawsApi st' = Some api /\ List.filter is_CoCreateInstance tr = []) /\
  (isInitialized (comInitializer st) = true ->
     comInitializer st' = comInitializer st /\ List.filter is_CoInitialize tr = []) /\
  ((pJawsApi st <> None -> isInitialized (comInitializer st) = true) ->
   pJawsApi st' <> None -> isInitialized (comInitializer st') = true) /\
  (List.filter is_CoInitialize tr = [] /\ comInitializer st' = comInitializer st \/
   List.filter is_CoInitialize tr = [CoInitialize_call] /\
   isInitialized (comInitializer st) = false /\
   comInitializer st' = {| m_initializeResult := CoInitialize env |}).
Proof.
  cbn zeta.
  jaws_paths st env prio; use_essence tr; unfold tryInitialize in *;
    repeat match goal with
           | H : isInitialized (comInitializer st) = _ |- _ => rewrite H in *
           end;
    cbn [fst snd] in *; cbn [List.filter is_CoInitialize is_CoCreateInstance app];
    repeat match goal with
           | |- _ /\ _ => split
           | |- forall _, _ => intro
           | |- _ -> _ => intro
           end;
    try congruence; try discriminate; try reflexivity;
    try (left; split; [ reflexivity | congruence ]);
    try (right; repeat split; congruence);
    try (apply negb_false_iff; congruence);
    try (match goal with
         | H : _ -> isInitialized _ = true, E : comInitializer _ = comInitializer _ |- _ =>
             rewrite E; apply H; congruence
         end).
  all: exfalso;
    match goal with
    | H : _ -> false = true |- _ => assert (false = true) by (apply H; congruence)
    end; discriminate.
Qed.

(** The JAWS object is created once: as soon as the statics hold one,
    every later call keeps that very object and none asks COM for
    another. *)
Theorem JAWS_object_is_created_once st api calls :
  pJawsApi st = Some api ->
  pJawsApi (run_statics st calls) = Some api /\
  Forall (fun r => List.filter is_CoCreateInstance r.2 = []) (run st calls).
Proof.
  revert st. induction calls as [|c rest IH]; intros st Hst; cbn.
  - split; [ exact Hst | constructor ].
  - destruct (JawsAnnounce_statics st (answers c) (priority c)) as (H1 & _).
    destruct (H1 api Hst) as [Hk Hf].
    destruct (JawsAnnounce st (answers c) (priority c)) as [[b st'] tr].
    cbn [fst snd] in *.
    destruct (IH st' Hk) as [IH1 IH2].
    split; [ exact IH1 | constructor; [ exact Hf | exact IH2 ] ].
Qed.

(** COM is initialised once: as soon as the wrapper holds a success,
    no later call invokes [CoInitialize] and the result it holds stays. *)
Theorem COM_is_initialised_once st calls :
  isInitialized (comInitializer st) = true ->
  comInitializer (run_statics st calls) = comInitializer st /\
  Forall (fun r => List.filter is_CoInitialize r.2 = []) (run st calls).
Proof.
  revert st. induction calls as [|c rest IH]; intros st Hst; cbn.
  - split; [ reflexivity | constructor ].
  - destruct (JawsAnnounce_statics st (answers c) (priority c)) as (_ & H2 & _).
    destruct (H2 Hst) as [Hk Hf].
    destruct (JawsAnnounce st (answers c) (priority c)) as [[b st'] tr].
    cbn [fst snd] in *.
    assert (Hst' : isInitialized (comInitializer st') = true) by now rewrite Hk.
    destruct (IH st' Hst') as [IH1 IH2].
    split; [ now rewrite IH1 | constructor; [ exact Hf | exact IH2 ] ].
Qed.

Lemma needs_uninitialize_initialized c :
  needs_uninitialize (m_initializeResult c) = true -> isInitialized c = true.
Proof.
  unfold needs_uninitialize, isInitialized. intros ->. reflexivity.
Qed.

Lemma exit_count st :
  length (List.filter is_CoUninitialize (exit_process st).2) =
  if needs_uninitialize (m_initializeResult (comInitializer st)) then 1%nat else 0%nat.
Proof.
  unfold exit_process, ComObjectWrapper_destroy, ComInitializationWrapper_destroy,
    needs_uninitialize.
  destruct (pJawsApi st);
    destruct ((m_initializeResult (comInitializer st) =? S_OK)
              || (m_initializeResult (comInitializer st) =? S_FALSE)); reflexivity.
Qed.

Lemma balance_from st calls :
  length (List.filter is_CoUninitialize (exit_process (run_statics st calls)).2) =
  ((if needs_uninitialize (m_initializeResult (comInitializer st)) then 1 else 0)
   + balanced_CoInitialize st calls)%nat.
Proof.
  revert st. induction calls as [|c rest IH]; intros st; cbn [run_statics balanced_CoInitialize].
  - rewrite exit_count. lia.
  - destruct (JawsAnnounce_statics st (answers c) (priority c)) as (_ & _ & _ & H4).
    destruct (JawsAnnounce st (answers c) (priority c)) as [[b st'] tr].
    cbn [fst snd] in *. rewrite IH.
    rewrite (existsb_essence is_CoInitialize) by (now intros []).
    assert (Hex : existsb is_CoInitialize (essence tr)
                  = negb (Nat.eqb (length (List.filter is_CoInitialize tr)) 0)).
    { rewrite (filter_essence is_CoInitialize) by (now intros []).
      induction (essence tr) as [|e l IHl]; [ reflexivity | ].
      cbn. destruct (is_CoInitialize e); [ reflexivity | exact IHl ]. }
    rewrite Hex.
    destruct H4 as [[Hf Hk] | (Hf & Hni & Hk)]; rewrite Hf, Hk; cbn.
    + lia.
    + destruct (needs_uninitialize (m_initializeResult (comInitializer st))) eqn:E.
      * apply needs_uninitialize_initialized in E. congruence.
      * destruct (needs_uninitialize (CoInitialize (answers c))); lia.
Qed.

(** Over the life of the process every [CoInitialize] that answered
    [S_OK] or [S_FALSE] is balanced by one [CoUninitialize] at exit, and
    there is at most one of either. *)
Theorem COM_initialisation_is_balanced_at_exit calls :
  CO_E_NOTINITIALIZED <> S_OK -> CO_E_NOTINITIALIZED <> S_FALSE ->
  length (List.filter is_CoUninitialize
            (exit_process (run_statics statics0 calls)).2)
  = balanced_CoInitialize statics0 calls /\
  (balanced_CoInitialize statics0 calls <= 1)%nat.
Proof.
  intros H1 H2.
  pose proof (balance_from statics0 calls) as Hb.
  assert (E : needs_uninitialize (m_initializeResult (comInitializer statics0)) = false).
  { unfold needs_uninitialize; cbn.
    apply Z.eqb_neq in H1, H2. now rewrite H1, H2. }
  rewrite E in Hb. rewrite Nat.add_0_l in Hb. split; [ exact Hb | ].
  rewrite <- Hb, exit_count.
  case_match; lia.
Qed.

(** The process holds a JAWS object only while COM is initialised, and
    at exit releases it before anything else. *)
Theorem JAWS_object_lives_inside_COM calls obj :
  pJawsApi (run_statics statics0 calls) = Some obj ->
  isInitialized (comInitializer (run_statics statics0 calls)) = true /\
  exists rest, (exit_process (run_statics statics0 calls)).2
               = Release_at_exit obj :: rest /\
               ~ In (Release_at_exit obj) rest.
Proof.
  intros Hobj. split.
  - assert (Hinv : forall st,
      (pJawsApi st <> None -> isInitialized (comInitializer st) = true) ->
      pJawsApi (run_statics st calls) <> None ->
      isInitialized (comInitializer (run_statics st calls)) = true).
    { clear. induction calls as [|c rest IH]; intros st Hst; cbn; [ exact Hst | ].
      destruct (JawsAnnounce_statics st (answers c) (priority c)) as (_ & _ & H3 & _).
      apply IH. exact (H3 Hst). }
    apply (Hinv statics0); [ cbn; congruence | congruence ].
  - unfold exit_process, ComObjectWrapper_destroy, ComInitializationWrapper_destroy.
    rewrite Hobj.
    destruct (_ || _); eexists; (split; [ reflexivity | ]); cbn;
      intuition discriminate.
Qed.

(** An object that [CoCreateInstance] hands back is kept, when the
    answer was [S_OK], or released on the spot: never both, and never
    dropped without a release. *)
Theorem JawsAnnounce_keeps_or_releases_the_new_object st env prio o :
  existsb is_CoCreateInstance (JawsAnnounce st env prio).2 = true ->
  (CoCreateInstance env).2 = Some o ->
  let st' := (JawsAnnounce st env prio).1.2 in
  let tr := (JawsAnnounce st env prio).2 in
  pJawsApi st = None /\
  (pJawsApi st' = Some o /\ List.filter is_Release tr = [] /\
   (CoCreateInstance env).1 = S_OK
   \/
   pJawsApi st' = None /\ List.filter is_Release tr = [Release_call o] /\
   (CoCreateInstance env).1 <> S_OK /\
   (JawsAnnounce st env prio).1.1 = Returns false).
Proof.
  cbn zeta. intros Hcall Hobj. revert Hcall.
  destruct (pJawsApi st) as [api|] eqn:Eapi.
  - destruct (JawsAnnounce_statics st env prio) as (H1 & _).
    destruct (H1 api Eapi) as [_ Hf]. intros Hcall. exfalso.
    apply existsb_exists in Hcall as (e & Hin & He).
    assert (Hin' : In e (List.filter is_CoCreateInstance (JawsAnnounce st env prio).2))
      by (apply List.filter_In; auto).
    rewrite Hf in Hin'. destruct Hin'.
  - jaws_paths st env prio;
      rewrite (existsb_essence is_CoCreateInstance tr) by (now intros []);
      use_essence tr; cbn; intros Hcall;
      try discriminate; try congruence;
      (split; [ reflexivity | ]);
      repeat match goal with
             | H : Some _ = Some _ |- _ => injection H as H; subst
             | H : (_ =? _) = true |- _ => apply Z.eqb_eq in H
             | H : (_ =? _) = false |- _ => apply Z.eqb_neq in H
             end;
      first [ left; repeat split; auto; congruence
            | right; repeat split; auto; congruence ].
Qed.
End Jaws_lifetime_theorems.

Section Jaws_lifetime_examples.
Import JawsAnnouncer JawsAnnouncer_lifetime.
Local Open Scope Z_scope.

(** A string [snprintf] cannot convert: the first call initialises COM,
    creates the JAWS object, obtains the characters, and is held in the
    log. *)
Example JawsAnnounce_held_in_the_log :
  (JawsAnnounce statics0 (not_encodable 7) 0).1.1 = Never_returns /\
  essence (JawsAnnounce statics0 (not_encodable 7) 0).2
  = [CoInitialize_call; CoCreateInstance_call; GetStringChars_call].
Proof. split; reflexivity. Qed.

Lemma JawsAnnounce_throws_only_without_pending_exception_witness :
  ExceptionCheck (no_chars 7) = false /\
  (JawsAnnounce statics0 (no_chars 7) 0).1.1 = Returns false.
Proof.
  destruct (JawsAnnounce_throws_only_without_pending_exception (W := windows) statics0 (no_chars 7) 0
              "JawsAnnounce: failed to obtain chars from the announcing string")
    as (H1 & H2 & _).
  - vm_compute. repeat first [ left; reflexivity | right ].
  - split; assumption.
Defined.

Lemma JAWS_object_is_created_once_witness :
  pJawsApi (run_statics statics_ready
              [ {| answers := all_fine 7; priority := 0 |};
                {| answers := no_chars 7; priority := 1 |} ]) = Some 1%positive.
Proof.
  apply (JAWS_object_is_created_once (W := windows) statics_ready 1%positive
           [ {| answers := all_fine 7; priority := 0 |};
             {| answers := no_chars 7; priority := 1 |} ] eq_refl).
Defined.

Lemma COM_is_initialised_once_witness :
  comInitializer (run_statics statics_ready
                    [ {| answers := all_fine 7; priority := 0 |};
                      {| answers := no_chars 8; priority := 1 |} ])
  = comInitializer statics_ready.
Proof.
  apply (COM_is_initialised_once (W := windows) statics_ready
           [ {| answers := all_fine 7; priority := 0 |};
             {| answers := no_chars 8; priority := 1 |} ] eq_refl).
Defined.

Lemma COM_initialisation_is_balanced_at_exit_witness :
  length (List.filter is_CoUninitialize
            (exit_process (run_statics statics0
               [ {| answers := all_fine 7; priority := 0 |};
                 {| answers := all_fine 7; priority := 0 |} ])).2) = 1%nat.
Proof.
  destruct (COM_initialisation_is_balanced_at_exit (W := windows)
              [ {| answers := all_fine 7; priority := 0 |};
                {| answers := all_fine 7; priority := 0 |} ]) as [H _].
  - discriminate.
  - discriminate.
  - rewrite H. reflexivity.
Defined.

Lemma JAWS_object_lives_inside_COM_witness :
  isInitialized (comInitializer
    (run_statics statics0 [ {| answers := all_fine 7; priority := 0 |} ])) = true.
Proof.
  apply (JAWS_object_lives_inside_COM (W := windows)
           [ {| answers := all_fine 7; priority := 0 |} ] 1%positive eq_refl).
Defined.

Lemma JawsAnnounce_keeps_or_releases_the_new_object_witness :
  pJawsApi statics0 = None /\
  pJawsApi (JawsAnnounce statics0 (all_fine 7) 0).1.2 = Some 1%positive.
Proof.
  destruct (JawsAnnounce_keeps_or_releases_the_new_object (W := windows) statics0 (all_fine 7) 0
              1%positive ltac:(now vm_compute) eq_refl)
    as [H0 [(H1 & _) | (H1 & _)]].
  - split; assumption.
  - vm_compute in H1. discriminate H1.
Defined.

End Jaws_lifetime_examples.

(** ** The logger of the JAWS announcer *)

Section Logger_theorems.
Import Idea321176Logger.
Local Open Scope Z_scope.

Lemma overwrite_length (arr : list char) off l :
  (off + length l <= length arr)%nat -> length (overwrite arr off l) = length arr.
Proof.
  intros H. unfold overwrite. rewrite !length_app, length_take, length_drop. lia.
Qed.

Lemma overwrite_take_before (arr : list char) off l :
  (off <= length arr)%nat -> take off (overwrite arr off l) = take off arr.
Proof.
  intros H. unfold overwrite. rewrite take_app_le by (rewrite length_take; lia).
  rewrite take_take. f_equal. lia.
Qed.

Lemma overwrite_take_through (arr : list char) off l rest :
  (off <= length arr)%nat ->
  take (off + length l) (overwrite arr off (l ++ rest)) = take off arr ++ l.
Proof.
  intros H. unfold overwrite.
  rewrite take_app, length_take. replace (off `min` length arr)%nat with off by lia.
  rewrite take_take. replace ((off + length l) `min` off)%nat with off by lia.
  f_equal. replace (off + length l - off)%nat with (length l) by lia.
  rewrite <- app_assoc. apply take_app_length.
Qed.

Lemma buffer_ok_holds b : buffer_ok b -> holds (payload b) b.
Proof.
  unfold buffer_ok, holds, payload. destruct (buffer_ b) as [arr|]; cbn.
  - intros (H1 & H2 & _). auto.
  - intros (-> & H2). auto.
Qed.

Lemma snprintf_into_holds P b text :
  holds P b ->
  holds P (snprintf_into b (Text text)) /\
  getFreeSpace (snprintf_into b (Text text)) = getFreeSpace b /\
  charsCapacity_ (snprintf_into b (Text text)) = charsCapacity_ b /\
  (Z.of_nat (length text) <= INT_MAX ->
   printed P text (snprintf_result (Text text)) (snprintf_into b (Text text))).
Proof.
  unfold holds, snprintf_into, printed, snprintf_result, getFreeSpace.
  cbn [buffer_ length_ charsCapacity_].
  destruct (buffer_ b) as [arr|]; cbn [fmap option_fmap option_map default].
  - intros (Hl & Hr & Hp).
    destruct (Z.ltb_spec (length_ b) (charsCapacity_ b)) as [_|]; [ | lia ].
    set (n := charsCapacity_ b - length_ b - 1).
    destruct (Z.ltb_spec 0 n) as [Hn | Hn].
    + set (l := take (Z.to_nat (n - 1)) text).
      assert (Hll : (length l <= Z.to_nat (n - 1))%nat)
        by (unfold l; rewrite length_take; lia).
      cbn [fmap option_fmap option_map default].
      repeat split.
      * rewrite overwrite_length; [ exact Hl | rewrite length_app; cbn; lia ].
      * lia.
      * lia.
      * rewrite overwrite_take_before by lia. exact Hp.
      * intros Hi. right. destruct (Z.leb_spec (Z.of_nat (length text)) INT_MAX); [ | lia ].
        split; [ reflexivity | ]. intros Hfit.
        assert (El : l = text) by (unfold l; apply take_ge; lia).
        rewrite El.
        replace (Z.to_nat (length_ b + Z.of_nat (length text)))
          with (Z.to_nat (length_ b) + length text)%nat by lia.
        unfold Datatypes.id. rewrite overwrite_take_through by lia. now rewrite Hp.
    + cbn [fmap option_fmap option_map default].
      repeat split; try assumption; try lia.
      intros Hi. right. destruct (Z.leb_spec (Z.of_nat (length text)) INT_MAX); [ | lia ].
      split; [ reflexivity | ]. intros Hfit. lia.
  - intros (Hl & Hc & ->). rewrite Hl, Hc. cbn.
    repeat split; try reflexivity.
    intros Hi. right. destruct (Z.leb_spec (Z.of_nat (length text)) INT_MAX); [ | lia ].
    split; [ reflexivity | ]. intros Hfit. lia.
Qed.

Lemma grown_ge n : forall c, 0 <= c -> c <= grown c n.
Proof.
  induction n as [|n IH]; intros c Hc; cbn [grown]; [ lia | ].
  destruct (Z.ltb_spec c 1).
  - specialize (IH 1024). lia.
  - specialize (IH (c * 2)). lia.
Qed.

Lemma grown_add k : forall c m, grown (grown c k) m = grown c (k + m).
Proof.
  induction k as [|k IH]; intros c m; cbn [grown Nat.add]; [ reflexivity | apply IH ].
Qed.

Lemma resized_length old n fill : length (resized old n fill) = n.
Proof.
  unfold resized. rewrite length_app, length_take, length_map, length_seq. lia.
Qed.

Lemma resized_take old n fill k :
  (k <= n)%nat -> (k <= length old)%nat -> take k (resized old n fill) = take k old.
Proof.
  intros H1 H2. unfold resized.
  rewrite take_app_le by (rewrite length_take; lia).
  rewrite take_take. f_equal. lia.
Qed.

Lemma reallocImpl_holds P b fill :
  holds P b ->
  (if charsCapacity_ b <? 1 then 1024 else charsCapacity_ b * 2) < 2 ^ 64 ->
  let b1 := reallocImpl (if charsCapacity_ b <? 1 then 1024
                         else to_size_t (charsCapacity_ b * 2))
              (Realloc_gives fill) b in
  holds P b1 /\ length_ b1 = length_ b /\
  charsCapacity_ b1 = (if charsCapacity_ b <? 1 then 1024 else charsCapacity_ b * 2).
Proof.
  unfold holds. intros H Hlt.
  destruct (buffer_ b) as [arr|] eqn:Eb.
  - destruct H as (Hl & Hr & Hp).
    destruct (Z.ltb_spec (charsCapacity_ b) 1) as [|Hc]; [ lia | ].
    unfold to_size_t. rewrite Z.mod_small by lia.
    cbn. unfold reallocImpl. rewrite Eb. cbn [default from_option Datatypes.id].
    destruct (Z.ltb_spec (charsCapacity_ b * 2) 1); [ lia | ].
    destruct (Z.ltb_spec (charsCapacity_ b * 2) (length_ b)); [ lia | ].
    cbn [buffer_ length_ charsCapacity_].
    rewrite resized_length, resized_take by lia.
    repeat split; try lia. exact Hp.
  - destruct H as (Hl & Hc & ->). rewrite Hc, Hl. cbn.
    rewrite Eb. cbn. rewrite Hl. cbn. repeat split; lia.
Qed.

Lemma append_loop_succeeds reallocs : forall P text written b,
  all_succeed reallocs -> holds P b -> printed P text written b ->
  Z.of_nat (length text) <= INT_MAX ->
  length_ b + Z.of_nat (length text) + 2 <= grown (charsCapacity_ b) (length reallocs) ->
  grown (charsCapacity_ b) (length reallocs) < 2 ^ 64 ->
  exists k b',
    (k <= length reallocs)%nat /\
    append_loop reallocs (Text text) written b = Some (b', drop k reallocs) /\
    buffer_ok b' /\ payload b' = P ++ text /\
    charsCapacity_ b' = grown (charsCapacity_ b) k /\
    length_ b' = length_ b + Z.of_nat (length text).
Proof.
  assert (Hexit : forall (reallocs : list Realloc) P text written b,
    holds P b -> printed P text written b ->
    (written <? 0) || (getFreeSpace b <=? written) = false ->
    exists k b',
      (k <= length reallocs)%nat /\
      Some ({| buffer_ := (fun arr => <[Z.to_nat (length_ b + written) := 0]> arr)
                            <$> buffer_ b;
               length_ := length_ b + written;
               charsCapacity_ := charsCapacity_ b |}, reallocs)
        = Some (b', drop k reallocs) /\
      buffer_ok b' /\ payload b' = P ++ text /\
      charsCapacity_ b' = grown (charsCapacity_ b) k /\
      length_ b' = length_ b + Z.of_nat (length text)).
  { intros rs P text written b Hh Hp Hc.
    apply orb_false_iff in Hc as [Hc1 Hc2].
    apply Z.ltb_ge in Hc1. apply Z.leb_gt in Hc2.
    destruct Hp as [[-> _] | [-> Hp]]; [ lia | ]. specialize (Hp Hc2).
    exists 0%nat. eexists. split; [ lia | ]. split; [ reflexivity | ].
    unfold holds in Hh. unfold buffer_ok, payload, getFreeSpace in *.
    cbn [buffer_ length_ charsCapacity_ grown].
    destruct (buffer_ b) as [arr|].
    - destruct Hh as (Hl & Hr & HP).
      destruct (Z.ltb_spec (length_ b) (charsCapacity_ b)); [ | lia ].
      cbn [fmap option_fmap option_map default from_option Datatypes.id] in *.
      rewrite length_insert, take_insert_ge by lia.
      repeat split; try lia; try assumption.
      apply list_lookup_insert_eq. unfold char in *. lia.
    - destruct Hh as (Hl & Hcap & ->). rewrite Hl, Hcap in Hc2. cbn in Hc2. lia. }
  induction reallocs as [|r rest IH]; intros P text written b Hall Hh Hp Hi Hen Hov.
  - cbn [append_loop].
    destruct ((written <? 0) || (getFreeSpace b <=? written)) eqn:Hc;
      [ exfalso | now apply Hexit ].
    cbn [grown length] in Hen, Hov.
    unfold holds in Hh. unfold getFreeSpace in Hc.
    destruct Hp as [[-> Hn] | [-> Hp]].
    + rewrite Hn in Hh. destruct Hh as (Hl & Hcap & _). lia.
    + destruct (buffer_ b) as [arr|].
      * destruct Hh as (Hl & Hr & HP).
        destruct (Z.ltb_spec (length_ b) (charsCapacity_ b)); [ | lia ].
        apply orb_true_iff in Hc as [Hc | Hc]; [ apply Z.ltb_lt in Hc | apply Z.leb_le in Hc ]; lia.
      * destruct Hh as (Hl & Hcap & _). lia.
  - cbn [append_loop].
    destruct ((written <? 0) || (getFreeSpace b <=? written)) eqn:Hc;
      [ | now apply Hexit ].
    apply Forall_cons in Hall as [Hr Hall].
    destruct r as [|fill]; [ congruence | ].
    cbn [grown length] in Hen, Hov.
    assert (Hcap0 : 0 <= charsCapacity_ b).
    { unfold holds in Hh. destruct (buffer_ b); lia. }
    assert (Hn : (if charsCapacity_ b <? 1 then 1024 else charsCapacity_ b * 2) < 2 ^ 64).
    { eapply Z.le_lt_trans; [ apply (grown_ge (length rest)) | exact Hov ].
      destruct (charsCapacity_ b <? 1); lia. }
    destruct (reallocImpl_holds P b fill Hh Hn) as (Hh1 & Hl1 & Hc1).
    set (b1 := reallocImpl _ _ b) in *.
    destruct (snprintf_into_holds P b1 text Hh1) as (Hh2 & Hf2 & Hc2 & Hp2).
    destruct (IH P text (snprintf_result (Text text)) (snprintf_into b1 (Text text)))
      as (k & b' & Hk & Hrun & Hok & Hpay & Hcap & Hlen); auto.
    + cbn [length_ snprintf_into]. rewrite Hc2, Hc1, Hl1. exact Hen.
    + rewrite Hc2, Hc1. exact Hov.
    + exists (S k), b'. cbn [drop length grown]. repeat split; try assumption.
      * lia.
      * rewrite Hcap, Hc2, Hc1. reflexivity.
      * rewrite Hlen. cbn [length_ snprintf_into]. lia.
Qed.

Lemma appendFormattedImpl_grows reallocs text b :
  buffer_ok b -> all_succeed reallocs ->
  Z.of_nat (length text) <= INT_MAX ->
  length_ b + Z.of_nat (length text) + 2 <= grown (charsCapacity_ b) (length reallocs) ->
  grown (charsCapacity_ b) (length reallocs) < 2 ^ 64 ->
  exists k b',
    (k <= length reallocs)%nat /\
    appendFormattedImpl reallocs (Text text) b = Some (b', drop k reallocs) /\
    buffer_ok b' /\ payload b' = payload b ++ text /\
    charsCapacity_ b' = grown (charsCapacity_ b) k /\
    length_ b' = length_ b + Z.of_nat (length text).
Proof.
  intros Hok Hall Hi Hen Hov.
  pose proof (buffer_ok_holds b Hok) as Hh.
  unfold appendFormattedImpl.
  destruct ((0 <? charsCapacity_ b) && (length_ b <? charsCapacity_ b)) eqn:Hc.
  - destruct (snprintf_into_holds _ b text Hh) as (Hh2 & Hf2 & Hc2 & Hp2).
    destruct (append_loop_succeeds reallocs (payload b) text (snprintf_result (Text text))
                (snprintf_into b (Text text)))
      as (k & b' & Hk & Hrun & Hok' & Hpay & Hcap & Hlen); auto.
    exists k, b'. rewrite Hc2 in Hcap. cbn [length_ snprintf_into] in Hlen. auto 10.
  - apply append_loop_succeeds; auto.
    left. split; [ reflexivity | ].
    unfold buffer_ok in Hok. destruct (buffer_ b) as [arr|]; [ | reflexivity ].
    destruct Hok as (_ & Hr & _).
    apply andb_false_iff in Hc as [Hc | Hc]; [ apply Z.ltb_ge in Hc | apply Z.ltb_ge in Hc ]; lia.
Qed.


Lemma append_loop_spins reallocs : forall f written b,
  all_fail reallocs ->
  written = -1 \/ written = snprintf_result f ->
  written < 0 \/ getFreeSpace b <= written ->
  append_loop reallocs f written b = None.
Proof.
  induction reallocs as [|r rest IH]; intros f written b Hall Hw Hc; cbn [append_loop].
  - replace ((written <? 0) || (getFreeSpace b <=? written)) with true; [ reflexivity | ].
    symmetry. apply orb_true_iff. rewrite Z.ltb_lt, Z.leb_le. exact Hc.
  - replace ((written <? 0) || (getFreeSpace b <=? written)) with true.
    2:{ symmetry. apply orb_true_iff. rewrite Z.ltb_lt, Z.leb_le. exact Hc. }
    apply Forall_cons in Hall as [-> Hall]. cbn [reallocImpl freeImpl].
    apply IH; [ exact Hall | now right | ].
    destruct f as [text|junk]; cbn; [ | lia ].
    destruct (Z.leb_spec (Z.of_nat (length text)) INT_MAX); lia.
Qed.

(** On an encoding error the loop has no end, whatever the allocator
    answers. *)
Lemma append_loop_encoding_error reallocs : forall junk b,
  append_loop reallocs (Encoding_error junk) (-1) b = None.
Proof.
  induction reallocs as [|r rest IH]; intros junk b; cbn [append_loop].
  - reflexivity.
  - replace ((-1 <? 0) || (getFreeSpace b <=? -1)) with true by reflexivity.
    cbn [snprintf_result]. apply IH.
Qed.

Lemma appendFormattedImpl_encoding_error reallocs junk b :
  appendFormattedImpl reallocs (Encoding_error junk) b = None.
Proof.
  unfold appendFormattedImpl.
  destruct ((0 <? charsCapacity_ b) && (length_ b <? charsCapacity_ b));
    cbn [snprintf_result]; apply append_loop_encoding_error.
Qed.

Lemma append_all_encoding_error pieces : forall reallocs b junk,
  In (Encoding_error junk) pieces -> append_all reallocs pieces b = None.
Proof.
  induction pieces as [|f pieces IH]; intros reallocs b junk Hin; [ destruct Hin | ].
  cbn [append_all]. destruct Hin as [-> | Hin].
  - now rewrite appendFormattedImpl_encoding_error.
  - destruct (appendFormattedImpl reallocs f b) as [[b1 r1]|]; [ | reflexivity ].
    now apply (IH r1 b1 junk).
Qed.

(** Appending a value that [snprintf] formats to a consistent buffer,
    when the allocator answers every request and the doubling reaches
    the room needed: the call returns, the buffer is consistent, and its
    characters are the old ones followed by the text. *)
Theorem appendFormattedImpl_appends reallocs text b :
  buffer_ok b -> all_succeed reallocs ->
  Z.of_nat (length text) <= INT_MAX ->
  length_ b + Z.of_nat (length text) + 2 <= grown (charsCapacity_ b) (length reallocs) ->
  grown (charsCapacity_ b) (length reallocs) < 2 ^ 64 ->
  exists k b',
    (k <= length reallocs)%nat /\
    appendFormattedImpl reallocs (Text text) b = Some (b', drop k reallocs) /\
    buffer_ok b' /\ payload b' = payload b ++ text.
Proof.
  intros Hok Hall Hi Hen Hov.
  destruct (appendFormattedImpl_grows reallocs text b Hok Hall Hi Hen Hov)
    as (k & b' & Hk & Hrun & Hok' & Hpay & _).
  exists k, b'. auto.
Qed.

(** While the allocator keeps failing, an append that needs room does
    not return: the loop asks again and again. *)
Theorem appendFormattedImpl_spins_while_allocation_fails reallocs text b :
  all_fail reallocs ->
  getFreeSpace b <= Z.of_nat (length text) ->
  appendFormattedImpl reallocs (Text text) b = None.
Proof.
  intros Hall Hroom. unfold appendFormattedImpl.
  destruct ((0 <? charsCapacity_ b) && (length_ b <? charsCapacity_ b)).
  - apply append_loop_spins; [ exact Hall | now right | ].
    change (getFreeSpace (snprintf_into b (Text text))) with (getFreeSpace b).
    unfold snprintf_result.
    destruct (Z.leb_spec (Z.of_nat (length text)) INT_MAX); lia.
  - apply append_loop_spins; [ exact Hall | now left | lia ].
Qed.

(** One failed reallocation drops what the buffer held: the append of
    a value that [snprintf] formats, having met it, ends with its own
    text alone. *)
Theorem failed_reallocation_drops_the_earlier_text rest text b :
  getFreeSpace b <= Z.of_nat (length text) ->
  all_succeed rest ->
  Z.of_nat (length text) <= INT_MAX ->
  Z.of_nat (length text) + 2 <= grown 0 (length rest) ->
  grown 0 (length rest) < 2 ^ 64 ->
  exists k b',
    appendFormattedImpl (Realloc_fails :: rest) (Text text) b = Some (b', drop k rest) /\
    buffer_ok b' /\ payload b' = text.
Proof.
  intros Hroom Hall Hi Hen Hov.
  assert (Hloop : forall written b0,
    written < 0 \/ getFreeSpace b0 <= written ->
    exists k b',
      append_loop (Realloc_fails :: rest) (Text text) written b0 = Some (b', drop k rest) /\
      buffer_ok b' /\ payload b' = text).
  { intros written b0 Hc. cbn [append_loop].
    replace ((written <? 0) || (getFreeSpace b0 <=? written)) with true.
    2:{ symmetry. apply orb_true_iff. rewrite Z.ltb_lt, Z.leb_le. exact Hc. }
    cbn [reallocImpl freeImpl].
    destruct (append_loop_succeeds rest [] text (snprintf_result (Text text))
                (snprintf_into TLSBuffer_new (Text text)))
      as (k & b' & _ & Hrun & Hok & Hpay & _); auto.
    - cbn. auto.
    - right. unfold snprintf_result.
      destruct (Z.leb_spec (Z.of_nat (length text)) INT_MAX); [ | lia ].
      split; [ reflexivity | ]. cbn. lia.
    - exists k, b'. auto. }
  unfold appendFormattedImpl.
  destruct ((0 <? charsCapacity_ b) && (length_ b <? charsCapacity_ b)).
  - apply Hloop. right.
    change (getFreeSpace (snprintf_into b (Text text))) with (getFreeSpace b).
    unfold snprintf_result.
    destruct (Z.leb_spec (Z.of_nat (length text)) INT_MAX); lia.
  - apply Hloop. left. lia.
Qed.

Lemma all_succeed_drop k reallocs : all_succeed reallocs -> all_succeed (drop k reallocs).
Proof. apply Forall_drop. Qed.

Lemma append_all_grows pieces : forall reallocs b,
  buffer_ok b -> all_succeed reallocs ->
  Forall (fun text => Z.of_nat (length text) <= INT_MAX) pieces ->
  length_ b + Z.of_nat (length (concat pieces)) + 2
    <= grown (charsCapacity_ b) (length reallocs) ->
  grown (charsCapacity_ b) (length reallocs) < 2 ^ 64 ->
  exists k b',
    (k <= length reallocs)%nat /\
    append_all reallocs (map Text pieces) b = Some (b', drop k reallocs) /\
    buffer_ok b' /\ payload b' = payload b ++ concat pieces /\
    charsCapacity_ b' = grown (charsCapacity_ b) k /\
    length_ b' = length_ b + Z.of_nat (length (concat pieces)).
Proof.
  induction pieces as [|text pieces IH]; intros reallocs b Hok Hall Hi Hen Hov.
  - exists 0%nat, b. cbn. rewrite app_nil_r. repeat split; try lia; auto.
  - apply Forall_cons in Hi as [Hi1 Hi].
    cbn [concat] in Hen. rewrite length_app in Hen.
    destruct (appendFormattedImpl_grows reallocs text b)
      as (k1 & b1 & Hk1 & Hrun1 & Hok1 & Hpay1 & Hcap1 & Hlen1); auto; [ lia | ].
    assert (Hg : grown (charsCapacity_ b1) (length (drop k1 reallocs))
                 = grown (charsCapacity_ b) (length reallocs)).
    { rewrite Hcap1, grown_add, length_drop. f_equal. lia. }
    destruct (IH (drop k1 reallocs) b1)
      as (k2 & b2 & Hk2 & Hrun2 & Hok2 & Hpay2 & Hcap2 & Hlen2); auto.
    + now apply all_succeed_drop.
    + rewrite Hg. lia.
    + rewrite Hg. exact Hov.
    + exists (k1 + k2)%nat, b2. cbn [append_all concat map]. rewrite Hrun1, Hrun2.
      rewrite length_drop in Hk2.
      rewrite drop_drop, Hpay2, Hpay1, Hcap2, Hcap1, grown_add, Hlen2, Hlen1,
        length_app, <- app_assoc.
      repeat split; try lia; try assumption.
Qed.


(** Values that [snprintf] formats end up in the buffer one after the
    other, the allocator being asked only as often as the doubling
    needs. *)
Theorem append_all_concatenates pieces reallocs b :
  buffer_ok b -> all_succeed reallocs ->
  Forall (fun text => Z.of_nat (length text) <= INT_MAX) pieces ->
  length_ b + Z.of_nat (length (concat pieces)) + 2
    <= grown (charsCapacity_ b) (length reallocs) ->
  grown (charsCapacity_ b) (length reallocs) < 2 ^ 64 ->
  exists k b',
    (k <= length reallocs)%nat /\
    append_all reallocs (map Text pieces) b = Some (b', drop k reallocs) /\
    buffer_ok b' /\ payload b' = payload b ++ concat pieces.
Proof.
  intros Hok Hall Hi Hen Hov.
  destruct (append_all_grows pieces reallocs b Hok Hall Hi Hen Hov)
    as (k & b' & Hk & Hrun & Hok' & Hpay & _).
  exists k, b'. auto.
Qed.

Lemma c_string_take arr : forall n,
  arr !! n = Some 0 -> Forall (fun c => c <> 0) (take n arr) ->
  c_string arr = take n arr.
Proof.
  induction arr as [|c rest IH]; intros [|n] Hn Hf; cbn in *; try discriminate.
  - injection Hn as ->. reflexivity.
  - apply Forall_cons in Hf as [Hc Hf].
    destruct (Z.eqb_spec c 0); [ contradiction | ]. f_equal. now apply IH.
Qed.

Lemma buffer_ok_resetImpl b :
  buffer_ok b ->
  buffer_ok (resetImpl b) /\ payload (resetImpl b) = [] /\
  length_ (resetImpl b) = 0 /\ charsCapacity_ (resetImpl b) = charsCapacity_ b.
Proof.
  unfold buffer_ok, resetImpl, payload. cbn [buffer_ length_ charsCapacity_].
  destruct (buffer_ b) as [arr|].
  - intros (Hl & Hr & _).
    destruct (Z.ltb_spec 0 (charsCapacity_ b)); [ | lia ].
    cbn. rewrite length_insert. repeat split; try lia.
    apply list_lookup_insert_eq. unfold char in *. lia.
  - intros (Hl & Hc). rewrite Hc. cbn. repeat split; lia.
Qed.

Lemma concat_piece_length (pieces : list (list char)) :
  Forall (fun text => (length text <= length (concat pieces))%nat) pieces.
Proof.
  induction pieces as [|t ts IH]; constructor; cbn; rewrite length_app; [ lia | ].
  eapply Forall_impl; [ exact IH | ]. cbn. intros; lia.
Qed.

Lemma entry_pieces_texts threadId dateTime val1 values :
  entry_pieces threadId dateTime (Text val1) (map Text values)
  = map Text (entry_texts threadId dateTime (val1 :: values)).
Proof.
  unfold entry_pieces, entry_texts. cbn [map app]. now rewrite map_app.
Qed.

(** With a JVM that prints and an allocator that answers, [logEntry]
    hands [System.err.print] the texts of its values in order, followed
    by two line feeds, when [snprintf] formats every value and none of
    the texts holds a 0. *)
Theorem logEntry_prints_the_entry reallocs J threadId dateTime val1 values b :
  let entry := concat (entry_texts threadId dateTime (val1 :: values)) ++ [10] in
  buffer_ok b -> all_succeed reallocs ->
  jvm J = true -> JNU_GetEnv J = true -> System_err J = true ->
  NewStringUTF J = true ->
  Forall (fun c => c <> 0) entry ->
  Z.of_nat (length entry) <= INT_MAX ->
  Z.of_nat (length entry) + 2 <= grown (charsCapacity_ b) (length reallocs) ->
  grown (charsCapacity_ b) (length reallocs) < 2 ^ 64 ->
  exists k b',
    logEntry reallocs J threadId dateTime (Text val1) (map Text values) b
      = Some (Some entry, b', drop k reallocs) /\
    buffer_ok b' /\ payload b' = entry.
Proof.
  intros entry Hok Hall HJ1 HJ2 HJ3 HJ4 Hnz Hi Hen Hov.
  set (pieces := entry_texts threadId dateTime (val1 :: values)) in *.
  assert (Hlen : length entry = (length (concat pieces) + 1)%nat)
    by (unfold entry; rewrite length_app; reflexivity).
  destruct (buffer_ok_resetImpl b Hok) as (Hok0 & Hpay0 & Hlen0 & Hcap0).
  destruct (append_all_grows pieces reallocs (resetImpl b))
    as (k1 & b1 & Hk1 & Hrun1 & Hok1 & Hpay1 & Hcap1 & Hlen1); auto.
  { eapply Forall_impl; [ apply concat_piece_length | ].
    intros x Hx. cbv beta in *. lia. }
  { cbn [length_ charsCapacity_ resetImpl]. lia. }
  assert (Hg : grown (charsCapacity_ b1) (length (drop k1 reallocs))
               = grown (charsCapacity_ b) (length reallocs)).
  { rewrite Hcap1, Hcap0, grown_add, length_drop. f_equal. lia. }
  destruct (appendFormattedImpl_grows (drop k1 reallocs) [10] b1)
    as (k2 & b2 & Hk2 & Hrun2 & Hok2 & Hpay2 & Hcap2 & Hlen2); auto.
  { now apply all_succeed_drop. }
  { cbn. unfold INT_MAX. lia. }
  { rewrite Hg, Hlen1, Hlen0. cbn [length]. lia. }
  { rewrite Hg. exact Hov. }
  rewrite Hpay1, Hpay0 in Hpay2. cbn [app] in Hpay2. fold entry in Hpay2.
  exists (k1 + k2)%nat, b2. unfold logEntry.
  rewrite entry_pieces_texts. fold pieces. rewrite Hrun1, Hrun2.
  rewrite drop_drop. split; [ | now split ]. do 3 f_equal.
  unfold getPayload. unfold buffer_ok in Hok2. unfold payload in Hpay2.
  assert (Hpos : 1 <= length_ b2).
  { rewrite Hlen2, Hlen1, Hlen0. cbn [length]. lia. }
  destruct (buffer_ b2) as [arr|]; [ | destruct Hok2; lia ].
  destruct Hok2 as (Hl & Hr & Hz). cbn [default from_option Datatypes.id] in Hpay2.
  unfold javaSystemErrPrint. rewrite HJ1, HJ2, HJ3, HJ4. cbn [negb].
  assert (Hlt : (length_ b2 <? 1) = false) by (apply Z.ltb_ge; lia).
  rewrite Hlt. cbn beta iota. rewrite Hlt.
  rewrite <- Hpay2. apply f_equal. apply c_string_take; [ exact Hz | ].
  exact (eq_ind_r (Forall (fun c => c <> 0)) Hnz Hpay2).
Qed.

(** A value that [snprintf] cannot encode keeps [logEntry] from ever
    returning, whatever the allocator answers and whatever the buffer
    holds. *)
Theorem logEntry_never_returns_on_an_encoding_error
    reallocs J threadId dateTime val1 values b junk :
  In (Encoding_error junk) (val1 :: values) ->
  logEntry reallocs J threadId dateTime val1 values b = None.
Proof.
  intros Hin. unfold logEntry.
  rewrite (append_all_encoding_error _ _ _ junk); [ reflexivity | ].
  unfold entry_pieces. do 5 right.
  destruct Hin as [-> | Hin]; [ now left | right ].
  apply in_or_app. now left.
Qed.

Lemma buffer_ok_sane b : buffer_ok b -> sane b.
Proof.
  unfold buffer_ok, sane. destruct (buffer_ b); [ intros (H1 & H2 & _) | intros (H1 & H2) ];
    split; auto; lia.
Qed.

Lemma sane_resetImpl b : sane b -> sane (resetImpl b).
Proof.
  unfold sane, resetImpl. cbn [buffer_ length_ charsCapacity_].
  intros (Hr & Hb). split; [ lia | ].
  destruct (buffer_ b) as [arr|]; destruct (0 <? charsCapacity_ b); cbn; auto.
  now rewrite length_insert.
Qed.

Lemma sane_snprintf_into b f : sane b -> sane (snprintf_into b f).
Proof.
  unfold sane, snprintf_into, getFreeSpace. cbn [buffer_ length_ charsCapacity_].
  intros (Hr & Hb). split; [ exact Hr | ].
  destruct (buffer_ b) as [arr|]; [ | now destruct (0 <? _) ].
  destruct (Z.ltb_spec (length_ b) (charsCapacity_ b)); [ | exact Hb ].
  destruct (Z.ltb_spec 0 (charsCapacity_ b - length_ b - 1)); [ | exact Hb ].
  cbn. rewrite overwrite_length; [ exact Hb | ].
  destruct f as [text|junk].
  - rewrite length_app, length_take. cbn [length]. unfold char in *. lia.
  - rewrite length_take. unfold char in *. lia.
Qed.

Lemma sane_reallocImpl newCharsCapacity r b :
  0 <= newCharsCapacity -> sane b -> sane (reallocImpl newCharsCapacity r b).
Proof.
  unfold sane. intros Hn (Hr & Hb). destruct r as [|fill]; cbn; [ lia | ].
  destruct (Z.ltb_spec newCharsCapacity 1).
  - cbn. rewrite resized_length. lia.
  - destruct (Z.ltb_spec newCharsCapacity (length_ b)); cbn;
      rewrite ?length_insert, resized_length; lia.
Qed.

Lemma append_loop_sane reallocs : forall f written b b' rest,
  sane b -> written = -1 \/ written = snprintf_result f ->
  append_loop reallocs f written b = Some (b', rest) ->
  sane b' /\ is_Some (buffer_ b') /\ snprintf_result f <= length_ b'.
Proof.
  assert (Hexit : forall (rs : list Realloc) f written b b' rest,
    sane b -> written = -1 \/ written = snprintf_result f ->
    (written <? 0) || (getFreeSpace b <=? written) = false ->
    Some ({| buffer_ := (fun arr => <[Z.to_nat (length_ b + written) := 0]> arr)
                          <$> buffer_ b;
             length_ := length_ b + written;
             charsCapacity_ := charsCapacity_ b |}, rs) = Some (b', rest) ->
    sane b' /\ is_Some (buffer_ b') /\ snprintf_result f <= length_ b').
  { intros rs f written b b' rest (Hr & Hb) Hw Hc E.
    apply orb_false_iff in Hc as [Hc1 Hc2].
    apply Z.ltb_ge in Hc1. apply Z.leb_gt in Hc2.
    destruct Hw as [-> | Hw]; [ lia | ]. injection E as <- <-.
    unfold sane, getFreeSpace in *. cbn [buffer_ length_ charsCapacity_].
    destruct (Z.ltb_spec (length_ b) (charsCapacity_ b)); [ | lia ].
    destruct (buffer_ b) as [arr|]; [ | lia ].
    cbn. rewrite length_insert. repeat split; try lia. eauto. }
  induction reallocs as [|r rs IH]; intros f written b b' rest Hs Hw; cbn [append_loop].
  - destruct ((written <? 0) || (getFreeSpace b <=? written)) eqn:Hc;
      [ discriminate | now apply Hexit ].
  - destruct ((written <? 0) || (getFreeSpace b <=? written)) eqn:Hc;
      [ | now apply Hexit ].
    apply IH; [ | now right ].
    apply sane_snprintf_into, sane_reallocImpl; [ | exact Hs ].
    destruct (charsCapacity_ b <? 1); [ lia | ].
    unfold to_size_t. apply Z.mod_pos_bound. lia.
Qed.

Lemma appendFormattedImpl_sane reallocs f b b' rest :
  sane b -> appendFormattedImpl reallocs f b = Some (b', rest) ->
  sane b' /\ is_Some (buffer_ b') /\ snprintf_result f <= length_ b'.
Proof.
  intros Hs. unfold appendFormattedImpl.
  destruct ((0 <? charsCapacity_ b) && (length_ b <? charsCapacity_ b)).
  - apply append_loop_sane; [ now apply sane_snprintf_into | now right ].
  - apply append_loop_sane; [ exact Hs | now left ].
Qed.

Lemma append_all_sane pieces : forall reallocs b b' rest,
  sane b -> append_all reallocs pieces b = Some (b', rest) -> sane b'.
Proof.
  induction pieces as [|f pieces IH]; intros reallocs b b' rest Hs; cbn [append_all].
  - now intros [= <- _].
  - destruct (appendFormattedImpl reallocs f b) as [[b1 r1]|] eqn:E; [ | discriminate ].
    apply IH. now apply (appendFormattedImpl_sane _ _ _ _ _ Hs E).
Qed.

(** Whenever [logEntry] returns, it has printed from the buffer: the
    text kept for a failed construction is never the one it prints. *)
Theorem logEntry_never_prints_its_failure_text
    reallocs J threadId dateTime val1 values b out b' rest :
  sane b ->
  logEntry reallocs J threadId dateTime val1 values b = Some (out, b', rest) ->
  exists arr,
    buffer_ b' = Some arr /\ 1 <= length_ b' /\
    out = javaSystemErrPrint J arr (length_ b').
Proof.
  intros Hs. unfold logEntry.
  destruct (append_all _ _ _) as [[b1 r1]|] eqn:E1; [ | discriminate ].
  destruct (appendFormattedImpl r1 (Text [10]) b1) as [[b2 r2]|] eqn:E2; [ | discriminate ].
  intros [= <- <- <-].
  apply append_all_sane in E1; [ | now apply sane_resetImpl ].
  destruct (appendFormattedImpl_sane _ _ _ _ _ E1 E2) as (_ & [arr Ha] & Hl).
  change (snprintf_result (Text [10])) with 1 in Hl.
  assert (Hlt : (length_ b2 <? 1) = false) by (apply Z.ltb_ge; lia).
  exists arr. unfold getPayload. rewrite Ha, Hlt. cbn beta iota. rewrite Hlt. auto.
Qed.

End Logger_theorems.

Section Logger_examples.
Import Idea321176Logger.
Local Open Scope Z_scope.

Lemma buffer_ab_ok : buffer_ok buffer_ab.
Proof. repeat split; cbn; lia. Qed.

Lemma zeroed_succeed n : all_succeed (replicate n zeroed).
Proof. induction n; constructor; [ discriminate | assumption ]. Qed.

Lemma appendFormattedImpl_appends_witness :
  exists k b',
    appendFormattedImpl [zeroed; zeroed] (Text [99; 100]) buffer_ab
      = Some (b', drop k [zeroed; zeroed]) /\
    payload b' = [97; 98; 99; 100].
Proof.
  destruct (appendFormattedImpl_appends [zeroed; zeroed] [99; 100] buffer_ab
              buffer_ab_ok (zeroed_succeed 2))
    as (k & b' & _ & Hrun & _ & Hpay).
  - now vm_compute.
  - now vm_compute.
  - now vm_compute.
  - exists k, b'. split; [ exact Hrun | exact Hpay ].
Defined.

Lemma appendFormattedImpl_spins_while_allocation_fails_witness :
  appendFormattedImpl [Realloc_fails; Realloc_fails; Realloc_fails]
    (Text [99; 100]) buffer_ab = None.
Proof.
  apply appendFormattedImpl_spins_while_allocation_fails.
  - repeat constructor.
  - now vm_compute.
Defined.

Lemma failed_reallocation_drops_the_earlier_text_witness :
  exists k b',
    appendFormattedImpl [Realloc_fails; zeroed] (Text [99; 100]) buffer_ab
      = Some (b', drop k [zeroed]) /\
    payload b' = [99; 100].
Proof.
  destruct (failed_reallocation_drops_the_earlier_text [zeroed] [99; 100] buffer_ab)
    as (k & b' & Hrun & _ & Hpay).
  - now vm_compute.
  - exact (zeroed_succeed 1).
  - now vm_compute.
  - now vm_compute.
  - now vm_compute.
  - exists k, b'. split; [ exact Hrun | exact Hpay ].
Defined.

Lemma append_all_concatenates_witness :
  exists k b',
    append_all [zeroed; zeroed]
      [Text [99]; Text [100; 101]; Text []; Text [102]] buffer_ab
      = Some (b', drop k [zeroed; zeroed]) /\
    payload b' = [97; 98; 99; 100; 101; 102].
Proof.
  destruct (append_all_concatenates [[99]; [100; 101]; []; [102]]
              [zeroed; zeroed] buffer_ab buffer_ab_ok (zeroed_succeed 2))
    as (k & b' & _ & Hrun & _ & Hpay).
  - repeat constructor; now vm_compute.
  - now vm_compute.
  - now vm_compute.
  - exists k, b'. split; [ exact Hrun | exact Hpay ].
Defined.

Lemma logEntry_prints_the_entry_witness :
  exists k b',
    logEntry [zeroed; zeroed] jvm_ok (chars_of "7") (chars_of "now")
      (Text (chars_of "hi")) [] buffer_ab
    = Some (Some (chars_of "[7] [now] hi" ++ [10; 10]), b',
            drop k [zeroed; zeroed]).
Proof.
  destruct (logEntry_prints_the_entry [zeroed; zeroed] jvm_ok (chars_of "7")
              (chars_of "now") (chars_of "hi") [] buffer_ab
              buffer_ab_ok (zeroed_succeed 2) eq_refl eq_refl eq_refl eq_refl)
    as (k & b' & Hrun & _).
  - vm_compute. repeat (constructor; [ discriminate | ]). constructor.
  - now vm_compute.
  - now vm_compute.
  - now vm_compute.
  - exists k, b'. cbn [map] in Hrun. rewrite Hrun.
    apply (f_equal (fun e => Some (Some e, b', drop k [zeroed; zeroed]))).
    now vm_compute.
Defined.

Lemma logEntry_never_prints_its_failure_text_witness :
  exists out b' rest arr,
    logEntry [Realloc_fails; zeroed] jvm_ok (chars_of "7") (chars_of "now")
      (Text (chars_of "hi")) [] buffer_ab = Some (out, b', rest) /\
    buffer_ b' = Some arr /\
    out = javaSystemErrPrint jvm_ok arr (length_ b').
Proof.
  destruct (logEntry [Realloc_fails; zeroed] jvm_ok (chars_of "7") (chars_of "now")
              (Text (chars_of "hi")) [] buffer_ab) as [[[out b'] rest]|] eqn:E.
  - destruct (logEntry_never_prints_its_failure_text _ _ _ _ _ _ _ _ _ _
                (buffer_ok_sane _ buffer_ab_ok) E) as (arr & Ha & _ & Ho).
    exists out, b', rest, arr. auto.
  - vm_compute in E. discriminate E.
Defined.

Lemma logEntry_never_returns_on_an_encoding_error_witness :
  logEntry [zeroed; zeroed; zeroed] jvm_ok (chars_of "7") (chars_of "now")
    (Text (chars_of "jStringToSpeak=")) [Encoding_error [104]; Text [34]]
    buffer_ab = None.
Proof.
  apply (logEntry_never_returns_on_an_encoding_error _ _ _ _ _ _ _ [104]).
  right. left. reflexivity.
Defined.

End Logger_examples.
